(** * Market-data layer of the trading front end: a shallow embedding

    The development follows the JavaScript/TypeScript sources of the
    repository:

    - [test_websocket_chart.html]: [getTimeframePeriod], [aggregateTrade],
      [processTrades] (trade-to-candle aggregation);
    - [frontend/components/trading/ChartContainer.tsx]:
      [getTimeframePeriod], [processPriceUpdate], [queuePriceUpdate] and the
      health check of the best-bid/ask effect;
    - [frontend/components/markets/MarketList.tsx]: [topMarkets],
      [topMarketSymbols], [selectedSymbolArray].

    The socket classes and the subscription bookkeeping behind them are not
    among the sources; the modules [Registry] and [FeedConnection] and the
    events of [ingest] follow the specification instead, and say so.

    Conventions of the embedding.  A JavaScript [number] that holds a price,
    a size or a volume is a rational ([Q]); the sources only add, halve and
    compare such numbers, and no NaN or infinity is among them.  Millisecond
    and second timestamps, periods and counters are integers ([Z], [nat]);
    they stay below 2^51, where the integer arithmetic of the sources is
    exact and the floor of a floating-point quotient of two of them is the
    floor of the exact quotient.  A timestamp that JavaScript computes as
    [NaN] (a division by a zero period) is [None]. *)

From Stdlib Require Import ZArith QArith Qround Qminmax Ascii String List Lia Lqa Bool.
From Stdlib Require Import Sorting.Sorted Sorting.Permutation.
From stdpp Require Import base gmap strings.
Import ListNotations.

#[local] Open Scope Z_scope.

(** ** Timeframe labels *)

Module Timeframe.

(** The character class [\d] of a JavaScript regular expression: the ten
    ASCII digits. *)
Definition is_digit (c : ascii) : bool :=
  ((48 <=? nat_of_ascii c)%nat && (nat_of_ascii c <=? 57)%nat)%bool.

(** The character class [[mhd]]. *)
Definition is_unit (c : ascii) : bool :=
  (Ascii.eqb c "m" || Ascii.eqb c "h" || Ascii.eqb c "d")%bool.

Definition digit_value (c : ascii) : Z := Z.of_nat (nat_of_ascii c) - 48.

(** The greedy group [(\d+)]: the longest prefix of digits, and what follows
    it.  Digits and unit letters are disjoint, so the matcher never has to
    give a digit back. *)
Fixpoint span_digits (s : string) : string * string :=
  match s with
  | EmptyString => (EmptyString, EmptyString)
  | String c r =>
      if is_digit c
      then let '(ds, rest) := span_digits r in (String c ds, rest)
      else (EmptyString, s)
  end.

(** [timeframe.match(/^(\d+)([mhd])$/)]: the two captured groups, or [None]
    for JavaScript's [null]. *)
Definition regex_match (timeframe : string) : option (string * ascii) :=
  match span_digits timeframe with
  | (String d ds, String u EmptyString) =>
      if is_unit u then Some (String d ds, u) else None
  | _ => None
  end.

(** [parseInt] on a string of decimal digits: the integer the digits
    denote.  JavaScript returns the number nearest to it, which is the
    integer itself up to 2^53; so are the products with 60, 3600 and 86400
    while they stay in that range. *)
Fixpoint parseInt_from (acc : Z) (s : string) : Z :=
  match s with
  | EmptyString => acc
  | String c r => parseInt_from (10 * acc + digit_value c) r
  end.

Definition parseInt (s : string) : Z := parseInt_from 0 s.

(** [getTimeframePeriod], identical in [test_websocket_chart.html] and in
    [ChartContainer.tsx]. *)
Definition getTimeframePeriod (timeframe : string) : Z :=
  match regex_match timeframe with
  | None => 60
  | Some (digits, unit) =>
      let value := parseInt digits in
      if Ascii.eqb unit "m" then value * 60
      else if Ascii.eqb unit "h" then value * 3600
      else if Ascii.eqb unit "d" then value * 86400
      else 60
  end.

(** What the pattern [^(\d+)([mhd])$] denotes, stated on the string and not
    on the matcher: one or more digits followed by exactly one unit letter. *)
Fixpoint all_digits (s : string) : Prop :=
  match s with
  | EmptyString => True
  | String c r => is_digit c = true /\ all_digits r
  end.

Definition is_label (timeframe digits : string) (unit : ascii) : Prop :=
  timeframe = String.append digits (String unit EmptyString)
  /\ digits <> EmptyString
  /\ all_digits digits
  /\ (unit = "m" \/ unit = "h" \/ unit = "d")%char.

Definition matches_pattern (timeframe : string) : Prop :=
  exists (digits : string) (unit : ascii), is_label timeframe digits unit.

(** Seconds per unit letter, as the spec lists them. *)
Definition unit_seconds (unit : ascii) : Z :=
  if Ascii.eqb unit "m" then 60
  else if Ascii.eqb unit "h" then 3600
  else if Ascii.eqb unit "d" then 86400
  else 0.

(** The timeframes the chart subscribes to ([ChartContainer.tsx], the call of
    [subscribeToTrades]); the test page configures the first three. *)
Definition configured_timeframes : list string :=
  ["1m"; "5m"; "15m"; "1h"; "4h"; "1d"]%string.

End Timeframe.

Import Timeframe.

(** ** Candle aggregation ([test_websocket_chart.html]) *)

Record Trade := mkTrade {
  t_timestamp : Z;          (* trade.timestamp, milliseconds *)
  t_price : Q;              (* trade.price *)
  t_size : Q                (* trade.size *)
}.

Record Candle := mkCandle {
  timestamp : option Z;     (* bucket start in seconds; None is NaN *)
  open : Q;
  high : Q;
  low : Q;
  close : Q;
  volume : Q;
  trades : nat
}.

Record Aggregator := mkAggregator {
  timeframe : string;
  currentCandle : option Candle;   (* None is null *)
  agg_trades : list Trade          (* the field [trades: []], never written *)
}.

(** [Math.floor(trade.timestamp / 1000 / candlePeriod) * candlePeriod].  The
    two divisions are divisions of numbers, not of integers; dividing by a
    zero period gives an infinity or NaN, and the product with 0 is NaN. *)
Definition candleTimeOf (candlePeriod : Z) (trade : Trade) : option Z :=
  if candlePeriod =? 0 then None
  else Some (Qfloor (inject_Z (t_timestamp trade) / 1000 / inject_Z candlePeriod)
             * candlePeriod).

(** JavaScript's [!==] on two numbers: NaN differs from everything. *)
Definition strict_neq (a b : option Z) : bool :=
  match a, b with
  | Some x, Some y => negb (x =? y)
  | _, _ => true
  end.

Definition aggregateTrade (aggregator : Aggregator) (trade : Trade) : Aggregator :=
  let candlePeriod := getTimeframePeriod (timeframe aggregator) in
  let candleTime := candleTimeOf candlePeriod trade in
  let startNew :=
    {| timestamp := candleTime;
       open := t_price trade; high := t_price trade;
       low := t_price trade; close := t_price trade;
       volume := t_size trade; trades := 1 |} in
  let candle :=
    match currentCandle aggregator with
    | None => startNew
    | Some c =>
        if strict_neq (timestamp c) candleTime then startNew
        else {| timestamp := timestamp c;
                open := open c;
                high := Qmax (high c) (t_price trade);
                low := Qmin (low c) (t_price trade);
                close := t_price trade;
                volume := (volume c + t_size trade)%Q;
                trades := S (trades c) |}
    end in
  {| timeframe := timeframe aggregator;
     currentCandle := Some candle;
     agg_trades := agg_trades aggregator |}.

(** [aggregators] is a JavaScript [Map] from timeframe to aggregator; it is
    iterated in insertion order, so it is an association list here. *)
Definition Aggregators := list (string * Aggregator).

(** The aggregators [subscribe()] installs. *)
Definition initAggregators (timeframes : list string) : Aggregators :=
  map (fun tf => (tf, {| timeframe := tf; currentCandle := None; agg_trades := [] |}))
      timeframes.

(** [processTrades]: every trade, in order, goes through every aggregator. *)
Definition processTrade (aggregators : Aggregators) (trade : Trade) : Aggregators :=
  map (fun '(tf, aggregator) => (tf, aggregateTrade aggregator trade)) aggregators.

Definition processTrades (aggregators : Aggregators) (trades : list Trade) : Aggregators :=
  fold_left processTrade trades aggregators.

(** One aggregator fed a list of trades in order. *)
Definition aggregateTrades (aggregator : Aggregator) (trades : list Trade) : Aggregator :=
  fold_left aggregateTrade trades aggregator.

(** Modelled from the spec: the update and close events of the Candle
    Aggregator.  The module that emits them ([lmexChartWebSocket.ts]) is not
    among the sources; the candle itself is the one [aggregateTrade] keeps.
    Following section 4.3 of the spec, a trade whose bucket differs from the
    live candle's flushes that candle as a close event, and every trade then
    reports the live candle as an update. *)
Inductive CandleEvent :=
| EvUpdate (atMillis : Z) (c : Candle)
| EvClose (c : Candle).

(** Modelled from the spec: [ingest], the contract of the Candle Aggregator;
    the candle state is the one of [aggregateTrade], the events are the
    spec's. *)
Definition ingest (aggregator : Aggregator) (trade : Trade)
  : Aggregator * list CandleEvent :=
  let candleTime :=
    candleTimeOf (getTimeframePeriod (timeframe aggregator)) trade in
  let closed :=
    match currentCandle aggregator with
    | Some c => if strict_neq (timestamp c) candleTime then [EvClose c] else []
    | None => []
    end in
  let aggregator' := aggregateTrade aggregator trade in
  let updated :=
    match currentCandle aggregator' with
    | Some c => [EvUpdate (t_timestamp trade) c]
    | None => []
    end in
  (aggregator', closed ++ updated).

(** Modelled from the spec: [ingest] over trades in the order received. *)
Fixpoint ingestAll (aggregator : Aggregator) (trades : list Trade)
  : Aggregator * list CandleEvent :=
  match trades with
  | [] => (aggregator, [])
  | trade :: rest =>
      let '(aggregator', events) := ingest aggregator trade in
      let '(final, events') := ingestAll aggregator' rest in
      (final, events ++ events')
  end.

(** What it means for a candle to summarise a non-empty run of trades of one
    bucket.  The running maximum and minimum are the folds [Math.max] and
    [Math.min] compute; the volume is the sum in arrival order. *)
Definition prices (trades : list Trade) : list Q := map t_price trades.

Definition sum_sizes (first : Trade) (rest : list Trade) : Q :=
  fold_left (fun acc t => (acc + t_size t)%Q) rest (t_size first).

Definition is_maximum (m : Q) (l : list Q) : Prop :=
  In m l /\ forall p, In p l -> (p <= m)%Q.

Definition is_minimum (m : Q) (l : list Q) : Prop :=
  In m l /\ forall p, In p l -> (m <= p)%Q.

Record summarises (bucket : Z) (c : Candle) (first : Trade) (rest : list Trade) : Prop := {
  sum_timestamp : timestamp c = Some bucket;
  sum_open : open c = t_price first;
  sum_close : close c = t_price (List.last rest first);
  sum_high : is_maximum (high c) (prices (first :: rest));
  sum_low : is_minimum (low c) (prices (first :: rest));
  sum_volume : volume c = sum_sizes first rest;
  sum_trades : trades c = List.length (first :: rest)
}.

(** ** Rate-limited price updates and the health check ([ChartContainer.tsx]) *)

Module ChartContainer.

Record BestBidAsk := mkBidAsk {
  symbol : string;
  bid : Q;
  ask : Q
}.

(** A bar of the candlestick series; [cc_volume] is optional in the source
    ([volume?: number]). *)
Record ChartCandle := mkChartCandle {
  cc_time : option Z;
  cc_open : Q;
  cc_high : Q;
  cc_low : Q;
  cc_close : Q;
  cc_volume : option Q
}.

(** A best bid/ask value delivered to the chart, that is one call of
    [candleSeriesRef.current.update] that [processPriceUpdate] made and the
    chart accepted: when it happened, the queued value it rendered and the
    bar it drew. *)
Record Delivery := mkDelivery {
  d_time : Z;
  d_value : BestBidAsk;
  d_candle : ChartCandle
}.

(** One call of [candleSeriesRef.current.update] by [handleCandleUpdate]:
    when it happened and the bar handed to the chart. *)
Record CandleCall := mkCandleCall {
  cu_time : Z;
  cu_candle : ChartCandle
}.

(** The refs and props the callbacks read and write.  [candleSeries] stands
    for [candleSeriesRef] and [volumeSeriesRef], which the component sets
    together when it creates the chart and resets together when it removes
    it.  [priceUpdateTimer] is the timeout that is still pending, with the
    time it is due.  The chart is kept as two logs, most recent first:
    [delivered], the best bid/ask values [processPriceUpdate] has drawn, and
    [candleUpdates], the calls [handleCandleUpdate] has made on the same
    series. *)
Record State := mkState {
  symbolProp : string;
  selectedTimeframe : string;
  candleSeries : bool;
  lastCandle : option (option Z * ChartCandle);
  priceUpdateQueue : option BestBidAsk;
  priceUpdateTimer : option Z;
  lastUpdateTime : Z;
  delivered : list Delivery;
  currentPrice : Q;
  candleUpdates : list CandleCall
}.

Definition set_queue (q : option BestBidAsk) (t : option Z) (s : State) : State :=
  {| symbolProp := symbolProp s; selectedTimeframe := selectedTimeframe s;
     candleSeries := candleSeries s; lastCandle := lastCandle s;
     priceUpdateQueue := q; priceUpdateTimer := t;
     lastUpdateTime := lastUpdateTime s; delivered := delivered s;
     currentPrice := currentPrice s; candleUpdates := candleUpdates s |}.

Definition clear_timer (s : State) : State :=
  set_queue (priceUpdateQueue s) None s.

(** [(bidAsk.bid + bidAsk.ask) / 2], with the fallback to the bid or the ask;
    [None] when the handler gives up ("No valid price available"). *)
Definition midPrice (bidAsk : BestBidAsk) : option Q :=
  let price := ((bid bidAsk + ask bidAsk) / 2)%Q in
  if Qle_bool price 0 then
    if negb (Qle_bool (bid bidAsk) 0) then Some (bid bidAsk)
    else if negb (Qle_bool (ask bidAsk) 0) then Some (ask bidAsk)
    else None
  else Some price.

(** [Math.floor(now / timeframePeriod) * timeframePeriod] with
    [now = Math.floor(Date.now() / 1000)]. *)
Definition currentCandleTimeOf (timeframePeriod : Z) (nowMillis : Z) : option Z :=
  let now := Qfloor (inject_Z nowMillis / 1000) in
  if timeframePeriod =? 0 then None
  else Some (Qfloor (inject_Z now / inject_Z timeframePeriod) * timeframePeriod).

(** [processPriceUpdate], run at [Date.now() = nowMillis].  [chartAccepts] is
    the chart library's answer to [candleSeries.update]: when it throws, the
    [catch] leaves the queue and the clock of the last update untouched.  The
    bar of the volume series is drawn from the same data and changes no ref;
    it is left out. *)
Definition processPriceUpdate (nowMillis : Z) (chartAccepts : bool) (s : State) : State :=
  match priceUpdateQueue s with
  | None => s
  | Some bidAsk =>
      match candleSeries s, lastCandle s with
      | true, Some (lastTime, candle) =>
          match midPrice bidAsk with
          | None => s
          | Some price =>
              let timeframePeriod := getTimeframePeriod (selectedTimeframe s) in
              let currentCandleTime := currentCandleTimeOf timeframePeriod nowMillis in
              let drawn :=
                if strict_neq lastTime currentCandleTime
                then (currentCandleTime,
                      {| cc_time := currentCandleTime;
                         cc_open := price; cc_high := price;
                         cc_low := price; cc_close := price;
                         cc_volume := Some 0%Q |})
                else (lastTime,
                      {| cc_time := cc_time candle;
                         cc_open := cc_open candle;
                         cc_high := Qmax (cc_high candle) price;
                         cc_low := Qmin (cc_low candle) price;
                         cc_close := price;
                         cc_volume := cc_volume candle |}) in
              if chartAccepts then
                {| symbolProp := symbolProp s;
                   selectedTimeframe := selectedTimeframe s;
                   candleSeries := candleSeries s;
                   lastCandle := Some drawn;
                   priceUpdateQueue := None;
                   priceUpdateTimer := priceUpdateTimer s;
                   lastUpdateTime := nowMillis;
                   delivered :=
                     {| d_time := nowMillis; d_value := bidAsk;
                        d_candle := snd drawn |} :: delivered s;
                   currentPrice := currentPrice s;
                   candleUpdates := candleUpdates s |}
              else s
          end
      | _, _ => s
      end
  end.

(** The minimum spacing of the deliveries of best bid/ask values, in
    milliseconds. *)
Definition minIntervalMillis : Z := 250.

(** [queuePriceUpdate], called at [Date.now() = nowMillis]. *)
Definition queuePriceUpdate (nowMillis : Z) (bidAsk : BestBidAsk) (s : State) : State :=
  if negb (String.eqb (symbol bidAsk) (symbolProp s)) then s
  else
    let timeSinceLastUpdate := nowMillis - lastUpdateTime s in
    let delay := Z.max 0 (minIntervalMillis - timeSinceLastUpdate) in
    set_queue (Some bidAsk) (Some (nowMillis + delay)) s.

(** [handleCandleUpdate], called by the chart socket at
    [Date.now() = nowMillis] with a candle of [timeframe].  A candle of the
    selected timeframe is handed to the chart at once: the handler neither
    reads nor writes the queue, the timeout or the clock of the rate
    limiter.  [chartAccepts] is the chart library's answer to the update
    calls; when one throws, the handler is left before it writes
    [currentPriceRef].  The bar of the volume series is drawn from the same
    candle and changes no ref; it is left out. *)
Definition handleCandleUpdate (nowMillis : Z) (candle : Candle)
    (timeframe : string) (chartAccepts : bool) (s : State) : State :=
  if negb (String.eqb timeframe (selectedTimeframe s)) then s
  else if negb (candleSeries s) then s
  else
    let chartCandle :=
      {| cc_time := timestamp candle;
         cc_open := open candle; cc_high := high candle;
         cc_low := low candle; cc_close := close candle;
         cc_volume := None |} in
    {| symbolProp := symbolProp s;
       selectedTimeframe := selectedTimeframe s;
       candleSeries := candleSeries s;
       lastCandle := lastCandle s;
       priceUpdateQueue := priceUpdateQueue s;
       priceUpdateTimer := priceUpdateTimer s;
       lastUpdateTime := lastUpdateTime s;
       delivered := delivered s;
       currentPrice := if chartAccepts then close candle else currentPrice s;
       candleUpdates :=
         {| cu_time := nowMillis; cu_candle := chartCandle |}
         :: candleUpdates s |}.

(** What can happen to the component: a value arrives from the order-book
    socket ([handlePriceUpdate] calls [queuePriceUpdate]), the pending
    timeout fires and runs [processPriceUpdate], another effect of the
    component (chart creation, history load, timeframe button) writes the
    refs that the callbacks only read, or a candle arrives from the chart
    socket and [handleCandleUpdate] runs. *)
Inductive Event :=
| Publish (nowMillis : Z) (bidAsk : BestBidAsk)
| TimerFires (nowMillis : Z) (chartAccepts : bool)
| RefsWritten (nowMillis : Z) (timeframe : string) (series : bool)
              (last : option (option Z * ChartCandle))
| CandleUpdate (nowMillis : Z) (candle : Candle) (timeframe : string)
               (chartAccepts : bool).

Definition event_time (e : Event) : Z :=
  match e with
  | Publish t _ => t
  | TimerFires t _ => t
  | RefsWritten t _ _ _ => t
  | CandleUpdate t _ _ _ => t
  end.

(** Whether the event is the timeout firing. *)
Definition fires (e : Event) : bool :=
  match e with
  | TimerFires _ _ => true
  | _ => false
  end.

Definition write_refs (timeframe : string) (series : bool)
    (last : option (option Z * ChartCandle)) (s : State) : State :=
  {| symbolProp := symbolProp s; selectedTimeframe := timeframe;
     candleSeries := series; lastCandle := last;
     priceUpdateQueue := priceUpdateQueue s;
     priceUpdateTimer := priceUpdateTimer s;
     lastUpdateTime := lastUpdateTime s; delivered := delivered s;
     currentPrice := currentPrice s; candleUpdates := candleUpdates s |}.

(** One event.  A timeout never fires before it is due, and fires once. *)
Definition step (s : State) (e : Event) : option State :=
  match e with
  | Publish now bidAsk => Some (queuePriceUpdate now bidAsk s)
  | TimerFires now chartAccepts =>
      match priceUpdateTimer s with
      | Some due =>
          if due <=? now
          then Some (processPriceUpdate now chartAccepts (clear_timer s))
          else None
      | None => None
      end
  | RefsWritten _ timeframe series last => Some (write_refs timeframe series last s)
  | CandleUpdate now candle timeframe chartAccepts =>
      Some (handleCandleUpdate now candle timeframe chartAccepts s)
  end.

(** A schedule: events in the order of the event loop, their times never
    going back.  [None] when the schedule is impossible. *)
Fixpoint run (clock : Z) (s : State) (events : list Event) : option State :=
  match events with
  | [] => Some s
  | e :: rest =>
      if clock <=? event_time e then
        match step s e with
        | Some s' => run (event_time e) s' rest
        | None => None
        end
      else None
  end.

(** Two states that differ at most in the queue and the timeout. *)
Definition same_but_queue (a b : State) : Prop :=
  set_queue None None a = set_queue None None b.

(** The component as first rendered for a symbol: the refs as [useRef] and
    [useState] initialise them, nothing drawn yet. *)
Definition mounted (sym : string) : State :=
  {| symbolProp := sym; selectedTimeframe := "1h"; candleSeries := false;
     lastCandle := None; priceUpdateQueue := None;
     priceUpdateTimer := None; lastUpdateTime := 0; delivered := [];
     currentPrice := 0; candleUpdates := [] |}.

(** Deliveries of best bid/ask values, most recent first, each at least
    [minIntervalMillis] after the one before it. *)
Definition spaced (log : list Delivery) : Prop :=
  StronglySorted
    (fun newer older => d_time older + minIntervalMillis <= d_time newer) log.

(** What the callbacks maintain between them: a pending timeout is due no
    earlier than one interval after the last delivery, and the log of
    deliveries lies before [lastUpdateTime] and is spaced. *)
Record consistent (s : State) : Prop := mkConsistent {
  timer_after_interval :
    forall due, priceUpdateTimer s = Some due ->
                lastUpdateTime s + minIntervalMillis <= due;
  log_before_last_update :
    Forall (fun d => d_time d <= lastUpdateTime s) (delivered s);
  log_spaced : spaced (delivered s)
}.

(** The methods of the order-book socket the effect calls. *)
Inductive WsCall :=
| WsConnect
| WsDisconnect
| WsSubscribeToBestBidAsk (sym : string)
| WsUnsubscribeFromBestBidAsk (sym : string).

(** What the socket's cache answers to [getLastPrice(symbol)] and
    [getBestBidAsk(symbol)]; [None] is [undefined]. *)
Record WsCache := mkWsCache {
  getLastPrice : option Q;
  getBestBidAsk : option BestBidAsk
}.

(** What one run of the health check leaves behind: the component state, the
    calls made on the socket, and the delays of the timeouts it set (each
    runs [resubscribeLater]). *)
Record HealthOutcome := mkHealthOutcome {
  hc_state : State;
  hc_calls : list WsCall;
  hc_timeouts : list Z
}.

Definition staleMillis : Z := 10000.
Definition deadMillis : Z := 30000.

(** The body of the [setInterval] callback of [startHealthCheck]. *)
Definition healthCheck (nowMillis : Z) (isSubscribed : bool) (cache : WsCache)
    (s : State) : HealthOutcome :=
  let timeSinceLastUpdate := nowMillis - lastUpdateTime s in
  if ((staleMillis <? timeSinceLastUpdate) && isSubscribed)%bool then
    let s' :=
      match getLastPrice cache with
      | Some _ =>
          match getBestBidAsk cache with
          | Some bidAsk => queuePriceUpdate nowMillis bidAsk s
          | None => s
          end
      | None => s
      end in
    if deadMillis <? timeSinceLastUpdate then
      {| hc_state := s';
         hc_calls := [WsUnsubscribeFromBestBidAsk (symbolProp s)];
         hc_timeouts := [1000] |}
    else {| hc_state := s'; hc_calls := []; hc_timeouts := [] |}
  else {| hc_state := s; hc_calls := []; hc_timeouts := [] |}.

(** The callback of the one-second timeout set by the health check. *)
Definition resubscribeLater (isSubscribed : bool) (s : State) : list WsCall :=
  if isSubscribed then [WsSubscribeToBestBidAsk (symbolProp s)] else [].


(** A scenario used to exercise the callbacks: a chart of BTC-PERP on the
    one-minute timeframe with its history loaded, two quotes for that symbol,
    and a socket whose cache holds the first quote. *)
Definition quote1 : BestBidAsk := {| symbol := "BTC-PERP"; bid := 100; ask := 102 |}.
Definition quote2 : BestBidAsk := {| symbol := "BTC-PERP"; bid := 101; ask := 103 |}.

Definition historyLoaded : Event :=
  RefsWritten 0 "1m" true
    (Some (Some 0,
           {| cc_time := Some 0; cc_open := 100; cc_high := 100; cc_low := 100;
              cc_close := 100; cc_volume := Some 5%Q |})).

Definition loadedChart : State :=
  write_refs "1m" true
    (Some (Some 0,
           {| cc_time := Some 0; cc_open := 100; cc_high := 100; cc_low := 100;
              cc_close := 100; cc_volume := Some 5%Q |}))
    (mounted "BTC-PERP").

(** A candle of the one-minute timeframe as the chart socket hands it
    over. *)
Definition minuteCandle : Candle :=
  {| timestamp := Some 0; open := 100; high := 104; low := 99; close := 103;
     volume := 7; trades := 3 |}.

Definition warmCache : WsCache :=
  {| getLastPrice := Some 101%Q; getBestBidAsk := Some quote1 |}.

End ChartContainer.

(** ** Ticker subscriptions of the market list ([MarketList.tsx]) *)

Module MarketList.

(** A ticker as the component reads it: the symbol, and what
    [parseFloat(quote_volume)] gives ([None] is NaN). *)
Record Ticker := mkTicker {
  symbol : string;
  quote_volume : option Q
}.













End MarketList.

(** ** Subscription registry *)

Module Registry.

(** Modelled from the spec: the Subscription Registry (section 4.2).  No
    source file implements it; the repository only documents the upstream
    limit of 250 channels and caps what the market list asks for.  A key is a
    (channel, symbol) pair, the map holds the reference counts. *)
Definition Key : Type := string * string.

Inductive UpstreamCommand :=
| UpSubscribe (k : Key)
| UpUnsubscribe (k : Key).

Inductive Error := SubscriptionLimitExceeded.

Inductive Result :=
| Refcount (n : nat)
| Rejected (e : Error).

Record Outcome := mkOutcome {
  registry : gmap Key nat;
  upstream : list UpstreamCommand;
  result : Result
}.

(** Modelled from the spec: [activeCount], the number of live subscriptions. *)
Definition activeCount (subs : gmap Key nat) : nat := size subs.

Section WithCap.

Variable cap : nat.

(** Modelled from the spec: [subscribe].  An existing key only gains a
    reference; a new key is rejected at the cap, and otherwise created with
    one reference and one upstream subscribe command. *)
Definition subscribe (k : Key) (subs : gmap Key nat) : Outcome :=
  match subs !! k with
  | Some n =>
      {| registry := <[k := S n]> subs; upstream := []; result := Refcount (S n) |}
  | None =>
      if decide (cap <= activeCount subs)%nat
      then {| registry := subs; upstream := [];
              result := Rejected SubscriptionLimitExceeded |}
      else {| registry := <[k := 1%nat]> subs; upstream := [UpSubscribe k];
              result := Refcount 1 |}
  end.

(** Modelled from the spec: [unsubscribe].  The count goes down by one; at
    zero the entry is removed with one upstream unsubscribe command; an
    unknown key is left alone. *)
Definition unsubscribe (k : Key) (subs : gmap Key nat) : Outcome :=
  match subs !! k with
  | None => {| registry := subs; upstream := []; result := Refcount 0 |}
  | Some n =>
      match Nat.pred n with
      | O => {| registry := delete k subs; upstream := [UpUnsubscribe k];
                result := Refcount 0 |}
      | S m => {| registry := <[k := S m]> subs; upstream := [];
                  result := Refcount (S m) |}
      end
  end.

Inductive Op :=
| Subscribe (k : Key)
| Unsubscribe (k : Key).

Definition apply (op : Op) (subs : gmap Key nat) : Outcome :=
  match op with
  | Subscribe k => subscribe k subs
  | Unsubscribe k => unsubscribe k subs
  end.

(** Modelled from the spec: a sequence of calls on the registry, giving the
    final registry, every upstream command issued, and the result of each
    call, in order. *)
Fixpoint runOps (ops : list Op) (subs : gmap Key nat)
  : gmap Key nat * list UpstreamCommand * list Result :=
  match ops with
  | [] => (subs, [], [])
  | op :: rest =>
      let o := apply op subs in
      let '(final, cmds, results) := runOps rest (registry o) in
      (final, upstream o ++ cmds, result o :: results)
  end.

End WithCap.

(** Modelled from the spec: the default cap (section 6). *)
Definition defaultCap : nat := 250.

End Registry.

(** ** Feed connection: reconnect with back-off *)

Module FeedConnection.

(** Modelled from the spec: the reconnect policy of the Feed Connection
    (section 4.1).  The socket classes ([websocket.ts],
    [lmexChartWebSocket.ts], [lmexOrderbookWebSocket.ts]) are not among the
    sources; the architecture report only records "1s * 2^n (max 30s)". *)
Inductive ConnectionState :=
| Disconnected | Connecting | Connected | Reconnecting | Failed.

Record Connection := mkConnection {
  state : ConnectionState;
  attempt : nat;
  maxFailures : nat         (* the configured maximum of consecutive failures *)
}.

(** Modelled from the spec: the wait before a retry, in milliseconds,
    [min(30s, 1s * 2^attempt)]. *)
Definition backoffMillis (attempt : nat) : Z :=
  Z.min 30000 (1000 * 2 ^ Z.of_nat attempt).

Inductive Event :=
| Dropped            (* unexpected close or heartbeat timeout *)
| RetryFailed        (* the reconnect attempt did not open the socket *)
| RetrySucceeded.    (* the reconnect attempt opened the socket *)

(** Modelled from the spec: one event of the reconnect policy; the next
    connection and, when a retry is scheduled, the wait before it.  A drop
    waits [backoffMillis attempt]; a failed retry increments [attempt] and
    either gives up or waits again; a successful one resets [attempt]. *)
Definition step (c : Connection) (e : Event) : Connection * option Z :=
  match e, state c with
  | Dropped, Connected =>
      ({| state := Reconnecting; attempt := attempt c;
          maxFailures := maxFailures c |},
       Some (backoffMillis (attempt c)))
  | RetryFailed, Reconnecting =>
      let attempt' := S (attempt c) in
      if (maxFailures c <=? attempt')%nat
      then ({| state := Failed; attempt := attempt';
               maxFailures := maxFailures c |}, None)
      else ({| state := Reconnecting; attempt := attempt';
               maxFailures := maxFailures c |},
            Some (backoffMillis attempt'))
  | RetrySucceeded, Reconnecting =>
      ({| state := Connected; attempt := 0; maxFailures := maxFailures c |}, None)
  | _, _ => (c, None)
  end.

(** Modelled from the spec: a run of events of the reconnect policy, giving
    the final connection and the wait announced last. *)
Fixpoint steps (c : Connection) (lastWait : option Z) (events : list Event)
  : Connection * option Z :=
  match events with
  | [] => (c, lastWait)
  | e :: rest => let '(c', w) := step c e in steps c' w rest
  end.

(** Modelled from the spec: a feed that is connected, its counter at 0. *)
Definition connected (maxFailures : nat) : Connection :=
  {| state := Connected; attempt := 0; maxFailures := maxFailures |}.

End FeedConnection.

(** ** Further notions for the candle aggregator *)

(** [Number.MAX_SAFE_INTEGER].  A period up to it is computed exactly by
    [getTimeframePeriod]: the numeric prefix and its product with the
    seconds of the unit are integers that JavaScript's numbers hold
    exactly. *)
Definition MAX_SAFE_INTEGER : Z := 2 ^ 53 - 1.

Definition exactPeriod (timeframe : string) : Prop :=
  getTimeframePeriod timeframe <= MAX_SAFE_INTEGER.

(** The largest time value of a [Date], in milliseconds either side of the
    epoch; [Date.now()] and the timestamps of trades lie within it. *)
Definition maxTimeMillis : Z := 8640000000000000.

Definition timeValue (millis : Z) : Prop :=
  - maxTimeMillis <= millis <= maxTimeMillis.

(** A candle whose open and close lie between its low and its high and that
    counts at least one trade. *)
Definition wellFormed (c : Candle) : Prop :=
  (low c <= open c <= high c)%Q /\ (low c <= close c <= high c)%Q
  /\ (1 <= trades c)%nat.

(** The candle [aggregateTrade] starts for a trade. *)
Definition freshCandle (candleTime : option Z) (trade : Trade) : Candle :=
  {| timestamp := candleTime;
     open := t_price trade; high := t_price trade;
     low := t_price trade; close := t_price trade;
     volume := t_size trade; trades := 1 |}.

(** ** Further notions for the rate-limited updates *)

Module Schedule.

Import ChartContainer.

(** The time of the last event of a schedule that starts at [clock]. *)
Definition endClock (clock : Z) (events : list Event) : Z :=
  fold_left (fun _ e => event_time e) events clock.

(** The quote that waits for the timeout, read off the events alone: the
    last one published for the symbol since the timeout last fired. *)
Definition pendingValue (sym : string) (events : list Event) : option BestBidAsk :=
  fold_left
    (fun pending e =>
       match e with
       | Publish _ v => if String.eqb (symbol v) sym then Some v else pending
       | TimerFires _ _ => None
       | RefsWritten _ _ _ _ => pending
       | CandleUpdate _ _ _ _ => pending
       end)
    events None.

(** A bar whose open and close lie between its low and its high. *)
Definition barWellFormed (c : ChartCandle) : Prop :=
  (cc_low c <= cc_open c <= cc_high c)%Q /\ (cc_low c <= cc_close c <= cc_high c)%Q.

(** The state and the events agree on what is pending, only quotes of the
    component's symbol are queued, and the clock of the last update never
    runs ahead of the schedule. *)
Record tracks (sym : string) (clock : Z) (events : list Event) (s : State) : Prop := {
  tracks_symbol : symbolProp s = sym;
  tracks_pending :
    match priceUpdateTimer s with
    | Some _ => exists v, priceUpdateQueue s = Some v
                  /\ pendingValue sym events = Some v
    | None => pendingValue sym events = None
    end;
  tracks_queue : forall v, priceUpdateQueue s = Some v -> symbol v = sym;
  tracks_clock : lastUpdateTime s <= Z.max 0 (endClock clock events);
  tracks_log :
    Forall (fun d => symbol (d_value d) = sym
                     /\ midPrice (d_value d) = Some (cc_close (d_candle d)))
           (delivered s)
}.

End Schedule.

(** ** The best-bid/ask effect of the chart ([ChartContainer.tsx]) *)

Module PriceEffect.

Import ChartContainer.

(** The variables the effect closes over, with the component state its
    callbacks act on.  [errorRecoveryTimer] says whether the variable of that
    name holds a timer id; [recoveryPending] whether that timeout is still to
    fire (the cleanup clears the timeout without resetting the variable).
    [resubscribePending] counts the one-second timeouts set by the health
    check; [active] is false once the cleanup has run. *)
Record Effect := mkEffect {
  active : bool;
  isSubscribed : bool;
  errorRecoveryTimer : bool;
  recoveryPending : bool;
  healthCheckTimer : bool;
  resubscribePending : nat;
  lastHealthCheckTime : Z;
  chart : State
}.

(** What reaches the effect: the socket calls one of the three callbacks it
    was given, one of the effect's timers fires, or React runs the cleanup. *)
Inductive EffectEvent :=
| PriceUpdate (nowMillis : Z) (bidAsk : BestBidAsk)
| SocketError
| ConnectionChange (nowMillis : Z) (connected : bool)
| HealthTick (nowMillis : Z) (cache : WsCache)
| RecoveryFires
| ResubscribeFires
| PriceTimerFires (nowMillis : Z) (chartAccepts : bool)
| Cleanup.

(** The body of the effect, run at [Date.now() = nowMillis]: nothing for
    another exchange than LMEX; otherwise connect, subscribe and start the
    health check. *)
Definition mountEffect (selectedExchange : string) (nowMillis : Z) (s : State)
  : option (Effect * list WsCall) :=
  if negb (String.eqb selectedExchange "lmex") then None
  else Some ({| active := true; isSubscribed := true;
                errorRecoveryTimer := false; recoveryPending := false;
                healthCheckTimer := true; resubscribePending := 0;
                lastHealthCheckTime := nowMillis; chart := s |},
             [WsConnect; WsSubscribeToBestBidAsk (symbolProp s)]).

Definition with_chart (s : State) (e : Effect) : Effect :=
  {| active := active e; isSubscribed := isSubscribed e;
     errorRecoveryTimer := errorRecoveryTimer e;
     recoveryPending := recoveryPending e;
     healthCheckTimer := healthCheckTimer e;
     resubscribePending := resubscribePending e;
     lastHealthCheckTime := lastHealthCheckTime e; chart := s |}.

(** One event: the next state and the calls made on the socket, or [None]
    when the event cannot happen (a timer that is not pending, an interval
    that was cleared, a second cleanup). *)
Definition effectStep (e : Effect) (ev : EffectEvent)
  : option (Effect * list WsCall) :=
  match ev with
  | PriceUpdate now bidAsk =>
      (* handlePriceUpdate *)
      Some ({| active := active e; isSubscribed := isSubscribed e;
               errorRecoveryTimer := errorRecoveryTimer e;
               recoveryPending := recoveryPending e;
               healthCheckTimer := healthCheckTimer e;
               resubscribePending := resubscribePending e;
               lastHealthCheckTime := now;
               chart := queuePriceUpdate now bidAsk (chart e) |}, [])
  | SocketError =>
      (* handleError *)
      if errorRecoveryTimer e then Some (e, [])
      else Some ({| active := active e; isSubscribed := isSubscribed e;
                    errorRecoveryTimer := true; recoveryPending := true;
                    healthCheckTimer := healthCheckTimer e;
                    resubscribePending := resubscribePending e;
                    lastHealthCheckTime := lastHealthCheckTime e;
                    chart := chart e |}, [])
  | ConnectionChange now connected =>
      (* handleConnectionChange *)
      if (connected && isSubscribed e)%bool
      then Some ({| active := active e; isSubscribed := isSubscribed e;
                    errorRecoveryTimer := errorRecoveryTimer e;
                    recoveryPending := recoveryPending e;
                    healthCheckTimer := healthCheckTimer e;
                    resubscribePending := resubscribePending e;
                    lastHealthCheckTime := now;
                    chart := chart e |},
                 [WsSubscribeToBestBidAsk (symbolProp (chart e))])
      else Some (e, [])
  | HealthTick now cache =>
      if healthCheckTimer e then
        let o := healthCheck now (isSubscribed e) cache (chart e) in
        Some ({| active := active e; isSubscribed := isSubscribed e;
                 errorRecoveryTimer := errorRecoveryTimer e;
                 recoveryPending := recoveryPending e;
                 healthCheckTimer := healthCheckTimer e;
                 resubscribePending :=
                   (resubscribePending e + List.length (hc_timeouts o))%nat;
                 lastHealthCheckTime := lastHealthCheckTime e;
                 chart := hc_state o |},
              hc_calls o)
      else None
  | RecoveryFires =>
      if recoveryPending e then
        Some ({| active := active e; isSubscribed := isSubscribed e;
                 errorRecoveryTimer := false; recoveryPending := false;
                 healthCheckTimer := healthCheckTimer e;
                 resubscribePending := resubscribePending e;
                 lastHealthCheckTime := lastHealthCheckTime e;
                 chart := chart e |},
              if isSubscribed e
              then [WsSubscribeToBestBidAsk (symbolProp (chart e))] else [])
      else None
  | ResubscribeFires =>
      match resubscribePending e with
      | O => None
      | S n =>
          Some ({| active := active e; isSubscribed := isSubscribed e;
                   errorRecoveryTimer := errorRecoveryTimer e;
                   recoveryPending := recoveryPending e;
                   healthCheckTimer := healthCheckTimer e;
                   resubscribePending := n;
                   lastHealthCheckTime := lastHealthCheckTime e;
                   chart := chart e |},
                resubscribeLater (isSubscribed e) (chart e))
      end
  | PriceTimerFires now chartAccepts =>
      match step (chart e) (TimerFires now chartAccepts) with
      | Some s' => Some (with_chart s' e, [])
      | None => None
      end
  | Cleanup =>
      if active e then
        Some ({| active := false; isSubscribed := false;
                 errorRecoveryTimer := errorRecoveryTimer e;
                 recoveryPending := false;
                 healthCheckTimer := false;
                 resubscribePending := resubscribePending e;
                 lastHealthCheckTime := lastHealthCheckTime e;
                 chart := clear_timer (chart e) |},
              [WsUnsubscribeFromBestBidAsk (symbolProp (chart e))])
      else None
  end.

(** A sequence of events: the final state and all calls on the socket, in
    order. *)
Fixpoint effectRun (e : Effect) (events : list EffectEvent)
  : option (Effect * list WsCall) :=
  match events with
  | [] => Some (e, [])
  | ev :: rest =>
      match effectStep e ev with
      | Some (e1, calls1) =>
          match effectRun e1 rest with
          | Some (e2, calls2) => Some (e2, calls1 ++ calls2)
          | None => None
          end
      | None => None
      end
  end.

(** The effect as [mountEffect] leaves it for the loaded BTC-PERP chart. *)
Definition mountedEffect : Effect :=
  {| active := true; isSubscribed := true;
     errorRecoveryTimer := false; recoveryPending := false;
     healthCheckTimer := true; resubscribePending := 0;
     lastHealthCheckTime := 0; chart := loadedChart |}.

(** An effect whose cleanup has run. *)
Definition cleanedUp (e : Effect) : Prop :=
  active e = false /\ isSubscribed e = false /\ healthCheckTimer e = false.

End PriceEffect.

(** ** Price precision from the tick size ([ChartContainer.tsx]) *)

Module PricePrecision.

(** [tickStr.indexOf('.')]; [None] is -1. *)
Fixpoint indexOfDot (s : string) : option nat :=
  match s with
  | EmptyString => None
  | String c r =>
      if Ascii.eqb c "." then Some O else option_map S (indexOfDot r)
  end.

(** [tickStr.substring(n)]. *)
Fixpoint substringFrom (n : nat) (s : string) : string :=
  match n, s with
  | O, _ => s
  | S m, String _ r => substringFrom m r
  | S _, EmptyString => EmptyString
  end.

(** The loop [for (let i = decimals.length - 1; i >= 0; i--)], entered with
    [left = i + 1] indices still to visit: the first character from the right
    that is not '0' sets the precision to its index plus one and ends the
    loop. *)
Fixpoint scanBack (left : nat) (decimals : string) (precision : nat) : nat :=
  match left with
  | O => precision
  | S i =>
      match String.get i decimals with
      | Some c => if Ascii.eqb c "0" then scanBack i decimals precision else S i
      | None => S i
      end
  end.

Section WithToString.

(** [Number.prototype.toString] of the JavaScript engine. *)
Variable numberToString : Q -> string.

(** [getPricePrecision]. *)
Definition getPricePrecision (tickSize : Q) : nat :=
  if Qeq_bool tickSize 0 then 2%nat
  else if Qle_bool 1 tickSize then 0%nat
  else
    let tickStr := numberToString tickSize in
    match indexOfDot tickStr with
    | None => 0%nat
    | Some decimalIndex =>
        let decimals := substringFrom (decimalIndex + 1) tickStr in
        scanBack (String.length decimals) decimals (String.length decimals)
    end.

End WithToString.

(** A string without a decimal point. *)
Fixpoint noDot (s : string) : Prop :=
  match s with
  | EmptyString => True
  | String c r => c <> "."%char /\ noDot r
  end.

(** What the precision is on the decimals of the printed tick size: either
    every decimal is '0' and all of them count, or the precision is the
    position just after the last decimal that is not '0'. *)
Definition strips_trailing_zeros (decimals : string) (precision : nat) : Prop :=
  (precision = String.length decimals
   /\ forall i, (i < String.length decimals)%nat ->
                String.get i decimals = Some "0"%char)
  \/ ((1 <= precision <= String.length decimals)%nat
      /\ (exists c, String.get (precision - 1) decimals = Some c /\ c <> "0"%char)
      /\ forall i, (precision <= i < String.length decimals)%nat ->
                   String.get i decimals = Some "0"%char).

End PricePrecision.

(** ** The order preview and its lines on the chart
       ([OrderPreviewContext.tsx], [ChartContainer.tsx]) *)

Module OrderPreview.

Inductive Side := Buy | Sell.

(** [OrderPreviewData]; [None] is [null]. *)
Record OrderPreviewData := mkPreview {
  symbol : string;
  side : option Side;
  entryPrice : option Q;
  takeProfitPrice : option Q;
  stopLossPrice : option Q;
  placeTakeProfit : bool;
  placeStopLoss : bool;
  hasInteracted : bool
}.

(** [Partial<OrderPreviewData>]: every key is present ([Some]) or absent. *)
Record PartialPreview := mkPartial {
  p_symbol : option string;
  p_side : option (option Side);
  p_entryPrice : option (option Q);
  p_takeProfitPrice : option (option Q);
  p_stopLossPrice : option (option Q);
  p_placeTakeProfit : option bool;
  p_placeStopLoss : option bool;
  p_hasInteracted : option bool
}.

(** The state [useState] starts with, and [clearOrderPreview] returns to. *)
Definition initialPreview : OrderPreviewData :=
  {| symbol := ""; side := None; entryPrice := None; takeProfitPrice := None;
     stopLossPrice := None; placeTakeProfit := false; placeStopLoss := false;
     hasInteracted := false |}.

(** One key of the spread [{ ...prev, ...data }]. *)
Definition spread {A} (prev : A) (data : option A) : A :=
  match data with
  | Some v => v
  | None => prev
  end.

(** [updateOrderPreview]: [setOrderPreview(prev => ({ ...prev, ...data }))]. *)
Definition updateOrderPreview (data : PartialPreview) (prev : OrderPreviewData)
  : OrderPreviewData :=
  {| symbol := spread (symbol prev) (p_symbol data);
     side := spread (side prev) (p_side data);
     entryPrice := spread (entryPrice prev) (p_entryPrice data);
     takeProfitPrice := spread (takeProfitPrice prev) (p_takeProfitPrice data);
     stopLossPrice := spread (stopLossPrice prev) (p_stopLossPrice data);
     placeTakeProfit := spread (placeTakeProfit prev) (p_placeTakeProfit data);
     placeStopLoss := spread (placeStopLoss prev) (p_placeStopLoss data);
     hasInteracted := spread (hasInteracted prev) (p_hasInteracted data) |}.

Definition clearOrderPreview (prev : OrderPreviewData) : OrderPreviewData :=
  initialPreview.

(** The spread of two partial objects, [{ ...first, ...second }]. *)
Definition spreadKey {A} (first second : option A) : option A :=
  match second with
  | Some v => Some v
  | None => first
  end.

Definition mergePartial (first second : PartialPreview) : PartialPreview :=
  {| p_symbol := spreadKey (p_symbol first) (p_symbol second);
     p_side := spreadKey (p_side first) (p_side second);
     p_entryPrice := spreadKey (p_entryPrice first) (p_entryPrice second);
     p_takeProfitPrice :=
       spreadKey (p_takeProfitPrice first) (p_takeProfitPrice second);
     p_stopLossPrice := spreadKey (p_stopLossPrice first) (p_stopLossPrice second);
     p_placeTakeProfit :=
       spreadKey (p_placeTakeProfit first) (p_placeTakeProfit second);
     p_placeStopLoss := spreadKey (p_placeStopLoss first) (p_placeStopLoss second);
     p_hasInteracted := spreadKey (p_hasInteracted first) (p_hasInteracted second) |}.

Definition emptyPartial : PartialPreview :=
  {| p_symbol := None; p_side := None; p_entryPrice := None;
     p_takeProfitPrice := None; p_stopLossPrice := None;
     p_placeTakeProfit := None; p_placeStopLoss := None;
     p_hasInteracted := None |}.

(** A user action and what it does to the context's state. *)
Inductive Action :=
| Update (data : PartialPreview)
| Clear.

Definition act (prev : OrderPreviewData) (a : Action) : OrderPreviewData :=
  match a with
  | Update data => updateOrderPreview data prev
  | Clear => clearOrderPreview prev
  end.

End OrderPreview.

Module PreviewLines.

Import OrderPreview.

(** The options handed to [createPriceLine]. *)
Record PriceLineOptions := mkLine {
  price : Q;
  color : string;
  lineWidth : Z;
  lineStyle : Z;
  axisLabelVisible : bool;
  title : string
}.

(** The candlestick series of the chart library, as far as price lines go:
    the lines it shows, each under the identity of the object
    [createPriceLine] returned for it. *)
Record Series := mkSeries {
  nextLine : nat;
  priceLines : gmap nat PriceLineOptions
}.

Definition createPriceLine (options : PriceLineOptions) (series : Series)
  : nat * Series :=
  (nextLine series,
   {| nextLine := S (nextLine series);
      priceLines := <[nextLine series := options]> (priceLines series) |}).

Definition removePriceLine (line : nat) (series : Series) : Series :=
  {| nextLine := nextLine series;
     priceLines := delete line (priceLines series) |}.

(** [candleSeriesRef] and the three preview refs; [None] is [null]. *)
Record Refs := mkRefs {
  candleSeries : option Series;
  previewEntryLine : option nat;
  previewTakeProfitLine : option nat;
  previewStopLossLine : option nat
}.

(** [if (ref.current) { series.removePriceLine(ref.current) }]. *)
Definition dropLine (ref : option nat) (series : Series) : Series :=
  match ref with
  | Some line => removePriceLine line series
  | None => series
  end.

(** One of the three blocks "Update ... preview line": with a line wanted,
    the old one is removed and a new one created; without, the old one is
    removed and the ref reset. *)
Definition setLine (wanted : option PriceLineOptions) (ref : option nat)
    (series : Series) : option nat * Series :=
  match wanted with
  | Some options =>
      let '(line, series') := createPriceLine options (dropLine ref series) in
      (Some line, series')
  | None => (None, dropLine ref series)
  end.

(** [price && price > 0]. *)
Definition positivePrice (price : option Q) : option Q :=
  match price with
  | Some p => if Qle_bool p 0 then None else Some p
  | None => None
  end.

Section WithFormatting.

(** [Number.prototype.toString] and [Number.prototype.toFixed] of the
    JavaScript engine. *)
Variable numberToString : Q -> string.
Variable toFixed : Q -> nat -> string.

(** [let precision = 2; if (symbolInfo?.tick_size) precision = ...]. *)
Definition previewPrecision (tickSize : option Q) : nat :=
  match tickSize with
  | Some t =>
      if Qeq_bool t 0 then 2%nat
      else PricePrecision.getPricePrecision numberToString t
  | None => 2%nat
  end.

Definition entryOptions (preview : OrderPreviewData) (precision : nat)
  : option PriceLineOptions :=
  match positivePrice (entryPrice preview) with
  | Some p =>
      Some {| price := p;
              color := match side preview with
                       | Some Buy => "#00d39580"
                       | _ => "#f6465d80"
                       end;
              lineWidth := 1; lineStyle := 3; axisLabelVisible := true;
              title := String.append "Preview Entry: " (toFixed p precision) |}
  | None => None
  end.

Definition takeProfitOptions (preview : OrderPreviewData) (precision : nat)
  : option PriceLineOptions :=
  match positivePrice (takeProfitPrice preview) with
  | Some p =>
      if placeTakeProfit preview then
        Some {| price := p; color := "#00d39550";
                lineWidth := 1; lineStyle := 3; axisLabelVisible := true;
                title := String.append "Preview TP: " (toFixed p precision) |}
      else None
  | None => None
  end.

Definition stopLossOptions (preview : OrderPreviewData) (precision : nat)
  : option PriceLineOptions :=
  match positivePrice (stopLossPrice preview) with
  | Some p =>
      if placeStopLoss preview then
        Some {| price := p; color := "#f6465d50";
                lineWidth := 1; lineStyle := 3; axisLabelVisible := true;
                title := String.append "Preview SL: " (toFixed p precision) |}
      else None
  | None => None
  end.

(** Whether the preview is shown at all: the chart's symbol, and the user
    has touched the form. *)
Definition shown (preview : OrderPreviewData) (sym : string) : bool :=
  (String.eqb (symbol preview) sym && hasInteracted preview)%bool.

(** [updatePreviewLines]. *)
Definition updatePreviewLines (preview : OrderPreviewData) (sym : string)
    (tickSize : option Q) (r : Refs) : Refs :=
  match candleSeries r with
  | None => r
  | Some series =>
      if negb (shown preview sym) then
        {| candleSeries :=
             Some (dropLine (previewStopLossLine r)
                     (dropLine (previewTakeProfitLine r)
                        (dropLine (previewEntryLine r) series)));
           previewEntryLine := None;
           previewTakeProfitLine := None;
           previewStopLossLine := None |}
      else
        let precision := previewPrecision tickSize in
        let '(entry, series1) :=
          setLine (entryOptions preview precision) (previewEntryLine r) series in
        let '(takeProfit, series2) :=
          setLine (takeProfitOptions preview precision)
                  (previewTakeProfitLine r) series1 in
        let '(stopLoss, series3) :=
          setLine (stopLossOptions preview precision)
                  (previewStopLossLine r) series2 in
        {| candleSeries := Some series3;
           previewEntryLine := entry;
           previewTakeProfitLine := takeProfit;
           previewStopLossLine := stopLoss |}
  end.

(** The lines the preview calls for, in the order entry, take profit, stop
    loss. *)
Definition wantedLines (preview : OrderPreviewData) (sym : string)
    (tickSize : option Q) : list (option PriceLineOptions) :=
  if shown preview sym then
    [ entryOptions preview (previewPrecision tickSize);
      takeProfitOptions preview (previewPrecision tickSize);
      stopLossOptions preview (previewPrecision tickSize) ]
  else [None; None; None].

End WithFormatting.

(** The three refs in the order entry, take profit, stop loss, and the lines
    they hold. *)
Definition refs (r : Refs) : list (option nat) :=
  [previewEntryLine r; previewTakeProfitLine r; previewStopLossLine r].

Definition heldLines (r : Refs) : list nat := omap id (refs r).

(** Line identities of a series are below its counter. *)
Definition fresh (series : Series) : Prop :=
  forall k, is_Some (priceLines series !! k) -> (k < nextLine series)%nat.

(** The refs and the series agree: line identities are below the series'
    counter, and the refs hold distinct lines that the series shows. *)
Definition sound (r : Refs) : Prop :=
  match candleSeries r with
  | None => True
  | Some series =>
      (forall k, is_Some (priceLines series !! k) -> (k < nextLine series)%nat)
      /\ NoDup (heldLines r)
      /\ forall k, k ∈ heldLines r -> is_Some (priceLines series !! k)
  end.

End PreviewLines.

(** ** Live ticker data of the market list (MarketList.tsx) *)

Module TickerFeed.

Import MarketList.

(** The object the socket hands to [handleTickerUpdate] as [data]: it holds
    some of the keys of a ticker, [None] being a key it lacks.  As for
    [Ticker], the keys kept are the two the component computes with, and
    [u_quote_volume] is what [parseFloat] gives for the value under the
    key. *)
Record TickerUpdate := mkUpdate {
  u_symbol : option string;
  u_quote_volume : option (option Q)
}.

(** [tickerData], a [Record<string, Ticker>]. *)
Definition TickerData := gmap string TickerUpdate.

(** [handleTickerUpdate]: [setTickerData(prev => ({ ...prev, [symbol]: data }))].
    The entry under [symbol] is replaced, not merged. *)
Definition handleTickerUpdate (sym : string) (data : TickerUpdate)
    (prev : TickerData) : TickerData :=
  <[sym := data]> prev.

(** One key of the spread [{ ...ticker, ...data }]: the value of [data] when
    it has the key, the fetched value otherwise. *)
Definition spreadKey {A} (fetched : A) (live : option A) : A :=
  match live with
  | Some v => v
  | None => fetched
  end.

Definition spreadTicker (ticker : Ticker) (data : TickerUpdate) : Ticker :=
  {| symbol := spreadKey (symbol ticker) (u_symbol data);
     quote_volume := spreadKey (quote_volume ticker) (u_quote_volume data) |}.

(** One row of [mergedTickers]: [{ ...ticker, ...tickerData[ticker.symbol] }];
    spreading [undefined] adds no key. *)
Definition mergeTicker (tickerData : TickerData) (ticker : Ticker) : Ticker :=
  match tickerData !! symbol ticker with
  | Some data => spreadTicker ticker data
  | None => ticker
  end.

Definition mergedTickers (tickers : list Ticker) (tickerData : TickerData)
  : list Ticker :=
  map (mergeTicker tickerData) tickers.

(** The state after the socket has delivered [updates], oldest first, to a
    component that started with [{}]. *)
Definition receive (tickerData : TickerData) (update : string * TickerUpdate)
  : TickerData :=
  handleTickerUpdate (fst update) (snd update) tickerData.

Definition received (updates : list (string * TickerUpdate)) : TickerData :=
  fold_left receive updates ∅.

(** The newest update delivered under [sym], if any. *)
Fixpoint latest (sym : string) (updates : list (string * TickerUpdate))
  : option TickerUpdate :=
  match updates with
  | [] => None
  | (s, data) :: rest =>
      match latest sym rest with
      | Some newer => Some newer
      | None => if String.eqb s sym then Some data else None
      end
  end.

End TickerFeed.

(** * Properties *)

(** Case analysis on the condition of a conditional in the goal. *)
Ltac case_if :=
  match goal with
  | |- context [if ?b then _ else _] => destruct b
  end.

(** ** The timeframe matcher against the pattern *)

Section TimeframeFacts.

Lemma is_unit_not_digit (u : ascii) : is_unit u = true -> is_digit u = false.
Proof.
  unfold is_unit. intros H.
  apply orb_prop in H as [H | H]; [apply orb_prop in H as [H | H] |];
    apply Ascii.eqb_eq in H; subst u; reflexivity.
Qed.

Lemma is_unit_iff (u : ascii) :
  is_unit u = true <-> (u = "m" \/ u = "h" \/ u = "d")%char.
Proof.
  unfold is_unit. rewrite !orb_true_iff, !Ascii.eqb_eq. tauto.
Qed.

Lemma span_digits_app (s : string) :
  forall ds rest, span_digits s = (ds, rest) ->
    s = String.append ds rest /\ all_digits ds
    /\ match rest with
       | EmptyString => True
       | String c _ => is_digit c = false
       end.
Proof.
  induction s as [| c r IH]; cbn [span_digits]; intros ds rest Heq.
  - inversion Heq; subst. repeat split.
  - destruct (is_digit c) eqn:Hc.
    + destruct (span_digits r) as [ds' rest'] eqn:Hr.
      inversion Heq; subst. destruct (IH _ _ eq_refl) as (-> & Hall & Hrest).
      repeat split; assumption.
    + inversion Heq; subst. repeat split; assumption.
Qed.

Lemma append_nil (s : string) : String.append EmptyString s = s.
Proof. reflexivity. Qed.

Lemma append_cons (c : ascii) (r s : string) :
  String.append (String c r) s = String c (String.append r s).
Proof. reflexivity. Qed.

Lemma span_digits_complete (ds : string) :
  forall rest, all_digits ds ->
    match rest with
    | EmptyString => True
    | String c _ => is_digit c = false
    end ->
    span_digits (String.append ds rest) = (ds, rest).
Proof.
  induction ds as [| c r IH]; cbn [all_digits]; intros rest Hall Hrest.
  - rewrite append_nil.
    destruct rest as [| c r]; cbn [span_digits]; [reflexivity |].
    rewrite Hrest. reflexivity.
  - destruct Hall as [Hc Hall]. rewrite append_cons. cbn [span_digits]. rewrite Hc.
    rewrite (IH rest Hall Hrest). reflexivity.
Qed.

Lemma regex_match_sound (tf ds : string) (u : ascii) :
  regex_match tf = Some (ds, u) ->
  tf = String.append ds (String u EmptyString)
  /\ ds <> EmptyString /\ all_digits ds /\ is_unit u = true.
Proof.
  unfold regex_match. destruct (span_digits tf) as [d rest] eqn:Hspan.
  apply span_digits_app in Hspan as (Htf & Hall & _).
  destruct d as [| d0 d']; [discriminate |].
  destruct rest as [| u' [| ? ?]]; try discriminate.
  destruct (is_unit u') eqn:Hu; [| discriminate].
  intros Heq; inversion Heq; subst.
  split; [reflexivity | split; [discriminate | split; assumption]].
Qed.

Lemma regex_match_complete (ds : string) (u : ascii) :
  ds <> EmptyString -> all_digits ds -> is_unit u = true ->
  regex_match (String.append ds (String u EmptyString)) = Some (ds, u).
Proof.
  intros Hne Hall Hu. unfold regex_match.
  rewrite (span_digits_complete ds (String u EmptyString) Hall
             (is_unit_not_digit u Hu)).
  destruct ds as [| d0 d']; [congruence |]. rewrite Hu. reflexivity.
Qed.

Lemma matches_pattern_iff (tf : string) :
  matches_pattern tf <-> regex_match tf <> None.
Proof.
  split.
  - intros (ds & u & -> & Hne & Hall & Hu).
    rewrite (regex_match_complete ds u Hne Hall (proj2 (is_unit_iff u) Hu)).
    discriminate.
  - destruct (regex_match tf) as [[ds u] |] eqn:Hm; [| congruence].
    intros _. apply regex_match_sound in Hm as (Htf & Hne & Hall & Hu).
    exists ds, u. rewrite is_unit_iff in Hu. repeat split; assumption.
Qed.

Lemma period_of_match (ds : string) (u : ascii) :
  ds <> EmptyString -> all_digits ds -> is_unit u = true ->
  getTimeframePeriod (String.append ds (String u EmptyString))
  = parseInt ds * unit_seconds u.
Proof.
  intros Hne Hall Hu. unfold getTimeframePeriod, unit_seconds.
  rewrite (regex_match_complete ds u Hne Hall Hu). cbv zeta.
  apply is_unit_iff in Hu as [-> | [-> | ->]]; reflexivity.
Qed.

Lemma period_default (tf : string) :
  regex_match tf = None -> getTimeframePeriod tf = 60.
Proof. unfold getTimeframePeriod. intros ->. reflexivity. Qed.

Lemma parseInt_from_nonneg (s : string) :
  forall acc, 0 <= acc -> all_digits s -> acc <= parseInt_from acc s.
Proof.
  induction s as [| c r IH]; cbn [parseInt_from all_digits]; intros acc Hacc Hall.
  - lia.
  - destruct Hall as [Hc Hall].
    assert (0 <= digit_value c).
    { unfold is_digit in Hc. apply andb_prop in Hc as [Hlo _].
      apply Nat.leb_le in Hlo. unfold digit_value. lia. }
    specialize (IH (10 * acc + digit_value c) ltac:(lia) Hall). lia.
Qed.

Lemma period_nonneg (tf : string) : 0 <= getTimeframePeriod tf.
Proof.
  unfold getTimeframePeriod.
  destruct (regex_match tf) as [[ds u] |] eqn:Hm; cbv beta iota; [| lia].
  apply regex_match_sound in Hm as (_ & _ & Hall & _).
  pose proof (parseInt_from_nonneg ds 0 ltac:(lia) Hall) as Hv.
  change (0 <= parseInt ds) in Hv. cbv zeta.
  repeat case_if; lia.
Qed.

End TimeframeFacts.

(** ** Buckets *)

Section Buckets.

Lemma Qfloor_div_div (a p : Z) :
  0 < p -> Qfloor (inject_Z a / 1000 / inject_Z p) = a / (1000 * p).
Proof.
  intros Hp.
  assert (H : (inject_Z a / 1000 / inject_Z p == inject_Z a / inject_Z (1000 * p))%Q).
  { rewrite inject_Z_mult. field.
    change 0%Q with (inject_Z 0). rewrite inject_Z_injective. lia. }
  rewrite H. symmetry. apply Zdiv_Qdiv.
Qed.

Lemma candleTimeOf_pos (p : Z) (t : Trade) :
  0 < p -> candleTimeOf p t = Some (t_timestamp t / 1000 / p * p).
Proof.
  intros Hp. unfold candleTimeOf.
  destruct (Z.eqb_spec p 0) as [-> | _]; [lia |].
  rewrite (Qfloor_div_div _ _ Hp), Zdiv_Zdiv by lia. reflexivity.
Qed.

Lemma candleTimeOf_zero (t : Trade) : candleTimeOf 0 t = None.
Proof. reflexivity. Qed.

Lemma strict_neq_false (a b : option Z) :
  strict_neq a b = false -> exists x, a = Some x /\ b = Some x.
Proof.
  destruct a as [x |], b as [y |]; cbn; try discriminate.
  intros H. apply negb_false_iff, Z.eqb_eq in H. subst. eauto.
Qed.

Lemma strict_neq_same (x : Z) : strict_neq (Some x) (Some x) = false.
Proof. cbn. rewrite Z.eqb_refl. reflexivity. Qed.

Lemma strict_neq_true (a : option Z) (x : Z) :
  a <> Some x -> strict_neq a (Some x) = true.
Proof.
  destruct a as [y |]; [| reflexivity]. intros H. cbn.
  destruct (Z.eqb_spec y x); [congruence | reflexivity].
Qed.

(** Whatever the aggregator held, after a trade it holds a candle, and the
    candle carries the trade's bucket. *)
Lemma aggregateTrade_bucket (a : Aggregator) (t : Trade) (b : Z) :
  candleTimeOf (getTimeframePeriod (timeframe a)) t = Some b ->
  exists c, currentCandle (aggregateTrade a t) = Some c /\ timestamp c = Some b.
Proof.
  intros Hb. unfold aggregateTrade. cbv zeta. rewrite Hb.
  destruct (currentCandle a) as [c |]; cbn [currentCandle].
  - destruct (strict_neq (timestamp c) (Some b)) eqn:Hneq.
    + eexists; split; reflexivity.
    + eexists; split; [reflexivity |]. cbn [timestamp].
      apply strict_neq_false in Hneq as (x & Hx & Hx'). congruence.
  - eexists; split; reflexivity.
Qed.

Lemma aggregateTrade_timeframe (a : Aggregator) (t : Trade) :
  timeframe (aggregateTrade a t) = timeframe a.
Proof. reflexivity. Qed.

Lemma configured_timeframes_periods :
  map getTimeframePeriod configured_timeframes = [60; 300; 900; 3600; 14400; 86400].
Proof. reflexivity. Qed.

End Buckets.

Lemma configured_timeframes_labels (tf : string) :
  In tf configured_timeframes ->
  exists digits unit, is_label tf digits unit /\ 0 < parseInt digits.
Proof.
  intros Hin.
  assert (Hlabel : forall ds u, regex_match tf = Some (ds, u) ->
            0 < parseInt ds -> exists digits unit,
              is_label tf digits unit /\ 0 < parseInt digits).
  { intros ds u Hm Hpos. apply regex_match_sound in Hm as (Htf & Hne & Hall & Hu).
    exists ds, u. rewrite is_unit_iff in Hu. repeat split; assumption. }
  cbn in Hin.
  repeat (destruct Hin as [<- | Hin];
          [eapply Hlabel; [reflexivity | reflexivity] |]).
  destruct Hin.
Qed.

(** C5.  Every configured timeframe is a label "digits, then m, h or d" with
    a positive numeric prefix.  For every such label the period is the
    prefix times 60, 3600 or 86400, and the candle an aggregator with that
    label holds after any trade starts at
    floor(timestampSeconds / periodSeconds) * periodSeconds, with
    timestampSeconds the trade's millisecond timestamp over 1000. *)
Theorem bucket_start_formula :
  (forall tf, In tf configured_timeframes ->
     exists digits unit, is_label tf digits unit /\ 0 < parseInt digits)
  /\ forall (a : Aggregator) (trade : Trade) (digits : string) (unit : ascii),
       is_label (timeframe a) digits unit -> 0 < parseInt digits ->
       let periodSeconds := parseInt digits * unit_seconds unit in
       unit_seconds unit
       = (if Ascii.eqb unit "m" then 60
          else if Ascii.eqb unit "h" then 3600 else 86400)
       /\ getTimeframePeriod (timeframe a) = periodSeconds
       /\ candleTimeOf periodSeconds trade
          = Some (t_timestamp trade / 1000 / periodSeconds * periodSeconds)
       /\ exists c, currentCandle (aggregateTrade a trade) = Some c
            /\ timestamp c
               = Some (t_timestamp trade / 1000 / periodSeconds * periodSeconds).
Proof.
  split; [exact configured_timeframes_labels |].
  intros a trade digits unit (Htf & Hne & Hall & Hu) Hpos periodSeconds.
  assert (Hunit : unit_seconds unit =
    (if Ascii.eqb unit "m" then 60 else if Ascii.eqb unit "h" then 3600 else 86400)).
  { destruct Hu as [-> | [-> | ->]]; reflexivity. }
  assert (Hper : getTimeframePeriod (timeframe a) = periodSeconds).
  { rewrite Htf. apply period_of_match; try assumption. apply is_unit_iff, Hu. }
  assert (Hppos : 0 < periodSeconds).
  { unfold periodSeconds. rewrite Hunit.
    repeat case_if; lia. }
  pose proof (candleTimeOf_pos periodSeconds trade Hppos) as Hct.
  repeat split; try assumption.
  apply aggregateTrade_bucket. rewrite Hper. exact Hct.
Qed.

Lemma bucket_start_formula_witness :
  exists c,
    currentCandle
      (aggregateTrade {| timeframe := "15m"; currentCandle := None; agg_trades := [] |}
                      {| t_timestamp := 1000000; t_price := 10; t_size := 1 |})
    = Some c
    /\ timestamp c = Some 900.
Proof.
  pose proof (proj2 bucket_start_formula
    {| timeframe := "15m"; currentCandle := None; agg_trades := [] |}
    {| t_timestamp := 1000000; t_price := 10; t_size := 1 |}
    "15" "m"%char) as H.
  cbv zeta in H.
  destruct H as (_ & _ & _ & H).
  - repeat split; [discriminate | left; reflexivity].
  - reflexivity.
  - exact H.
Defined.

(** C9.  A label that does not have the shape "digits, then one of m, h, d"
    gets the period 60, so an aggregator with such a label puts trades into
    one-minute buckets. *)
Theorem unrecognised_timeframe_defaults (tf : string) :
  ~ matches_pattern tf ->
  getTimeframePeriod tf = 60
  /\ forall (a : Aggregator) (trade : Trade), timeframe a = tf ->
       exists c, currentCandle (aggregateTrade a trade) = Some c
         /\ timestamp c = Some (t_timestamp trade / 1000 / 60 * 60).
Proof.
  intros Hno.
  assert (Hnone : regex_match tf = None).
  { destruct (regex_match tf) eqn:Hm; [| reflexivity].
    exfalso. apply Hno, matches_pattern_iff. congruence. }
  pose proof (period_default tf Hnone) as Hper.
  split; [exact Hper |].
  intros a trade <-. apply aggregateTrade_bucket.
  rewrite Hper. apply candleTimeOf_pos. lia.
Qed.

Lemma unrecognised_timeframe_defaults_witness :
  getTimeframePeriod "" = 60 /\ getTimeframePeriod "1w" = 60
  /\ getTimeframePeriod "abc" = 60.
Proof.
  assert (Hno : forall tf, regex_match tf = None -> ~ matches_pattern tf).
  { intros tf Hm Hp. apply matches_pattern_iff in Hp. congruence. }
  split; [| split].
  - exact (proj1 (unrecognised_timeframe_defaults "" (Hno "" eq_refl))).
  - exact (proj1 (unrecognised_timeframe_defaults "1w" (Hno "1w" eq_refl))).
  - exact (proj1 (unrecognised_timeframe_defaults "abc" (Hno "abc" eq_refl))).
Defined.

(** ** The candle of one bucket *)

Section CandleInvariant.

Lemma Qmax_cases (x y : Q) : Qmax x y = x \/ Qmax x y = y.
Proof.
  unfold Qmax, GenericMinMax.gmax. destruct (x ?= y)%Q; auto.
Qed.

Lemma Qmin_cases (x y : Q) : Qmin x y = x \/ Qmin x y = y.
Proof.
  unfold Qmin, GenericMinMax.gmin. destruct (x ?= y)%Q; auto.
Qed.

Lemma is_maximum_single (p : Q) : is_maximum p [p].
Proof.
  split; [left; reflexivity |].
  intros q [<- | []]. apply Qle_refl.
Qed.

Lemma is_minimum_single (p : Q) : is_minimum p [p].
Proof.
  split; [left; reflexivity |].
  intros q [<- | []]. apply Qle_refl.
Qed.

Lemma is_maximum_snoc (m p : Q) (l : list Q) :
  is_maximum m l -> is_maximum (Qmax m p) (l ++ [p]).
Proof.
  intros [Hin Hub]. split.
  - apply in_or_app. destruct (Qmax_cases m p) as [-> | ->];
      [left; assumption | right; left; reflexivity].
  - intros q Hq. apply in_app_or in Hq as [Hq | [<- | []]].
    + apply Qle_trans with m; [apply Hub, Hq | apply Q.le_max_l].
    + apply Q.le_max_r.
Qed.

Lemma is_minimum_snoc (m p : Q) (l : list Q) :
  is_minimum m l -> is_minimum (Qmin m p) (l ++ [p]).
Proof.
  intros [Hin Hlb]. split.
  - apply in_or_app. destruct (Qmin_cases m p) as [-> | ->];
      [left; assumption | right; left; reflexivity].
  - intros q Hq. apply in_app_or in Hq as [Hq | [<- | []]].
    + apply Qle_trans with m; [apply Q.le_min_l | apply Hlb, Hq].
    + apply Q.le_min_r.
Qed.

Lemma prices_snoc (first t : Trade) (rest : list Trade) :
  prices (first :: rest ++ [t]) = prices (first :: rest) ++ [t_price t].
Proof. unfold prices. cbn [map]. rewrite map_app. reflexivity. Qed.

Lemma last_in {A} (l : list A) (d : A) : In (List.last l d) (d :: l).
Proof.
  destruct l as [| x l]; [left; reflexivity |]. right.
  assert (Hne : x :: l <> []) by discriminate.
  pose proof (app_removelast_last d Hne) as E.
  set (z := List.last (x :: l) d) in *.
  rewrite E. apply in_or_app. right. left. reflexivity.
Qed.

(** The first trade of a bucket opens a candle that summarises it. *)
Lemma summarises_first (bucket : Z) (t : Trade) :
  summarises bucket
    {| timestamp := Some bucket; open := t_price t; high := t_price t;
       low := t_price t; close := t_price t; volume := t_size t; trades := 1 |}
    t [].
Proof.
  constructor; cbn; try reflexivity.
  - apply is_maximum_single.
  - apply is_minimum_single.
Qed.

(** A further trade of the same bucket keeps the summary. *)
Lemma summarises_next (bucket : Z) (c : Candle) (first t : Trade) (rest : list Trade) :
  summarises bucket c first rest ->
  summarises bucket
    {| timestamp := timestamp c; open := open c;
       high := Qmax (high c) (t_price t); low := Qmin (low c) (t_price t);
       close := t_price t; volume := (volume c + t_size t)%Q;
       trades := S (trades c) |}
    first (rest ++ [t]).
Proof.
  intros [Hts Ho Hc Hh Hl Hv Hn]. constructor; cbn [timestamp open high low close volume trades].
  - exact Hts.
  - exact Ho.
  - rewrite List.last_last. reflexivity.
  - rewrite prices_snoc. apply is_maximum_snoc, Hh.
  - rewrite prices_snoc. apply is_minimum_snoc, Hl.
  - unfold sum_sizes in *. rewrite fold_left_app. cbn. rewrite Hv. reflexivity.
  - rewrite Hn. cbn. rewrite !length_app. cbn. lia.
Qed.

Lemma summarises_bounds (bucket : Z) (c : Candle) (first : Trade) (rest : list Trade) :
  summarises bucket c first rest ->
  (low c <= open c <= high c)%Q /\ (low c <= close c <= high c)%Q.
Proof.
  intros [_ Ho Hc [_ Hub] [_ Hlb] _ _].
  assert (Hfirst : In (t_price first) (prices (first :: rest))) by (left; reflexivity).
  assert (Hlast : In (t_price (List.last rest first)) (prices (first :: rest))).
  { unfold prices. apply in_map, last_in. }
  rewrite Ho, Hc. auto.
Qed.

Lemma aggregateTrade_same_bucket (a : Aggregator) (c : Candle) (t : Trade) (bucket : Z) :
  currentCandle a = Some c -> timestamp c = Some bucket ->
  candleTimeOf (getTimeframePeriod (timeframe a)) t = Some bucket ->
  currentCandle (aggregateTrade a t)
  = Some {| timestamp := timestamp c; open := open c;
            high := Qmax (high c) (t_price t); low := Qmin (low c) (t_price t);
            close := t_price t; volume := (volume c + t_size t)%Q;
            trades := S (trades c) |}.
Proof.
  intros Hc Hts Hb. unfold aggregateTrade. cbv zeta.
  rewrite Hc, Hb, Hts, strict_neq_same. reflexivity.
Qed.

Lemma aggregateTrade_new_bucket (a : Aggregator) (t : Trade) (bucket : Z) :
  (forall c, currentCandle a = Some c -> timestamp c <> Some bucket) ->
  candleTimeOf (getTimeframePeriod (timeframe a)) t = Some bucket ->
  currentCandle (aggregateTrade a t)
  = Some {| timestamp := Some bucket; open := t_price t; high := t_price t;
            low := t_price t; close := t_price t; volume := t_size t;
            trades := 1 |}.
Proof.
  intros Hfresh Hb. unfold aggregateTrade. cbv zeta. rewrite Hb.
  destruct (currentCandle a) as [c |]; [| reflexivity].
  rewrite (strict_neq_true _ _ (Hfresh c eq_refl)). reflexivity.
Qed.

Lemma aggregateTrades_timeframe (ts : list Trade) :
  forall a, timeframe (aggregateTrades a ts) = timeframe a.
Proof.
  unfold aggregateTrades.
  induction ts as [| t ts IH]; intros a; cbn [fold_left]; [reflexivity |].
  rewrite IH. apply aggregateTrade_timeframe.
Qed.

Lemma aggregateTrades_same_bucket (bucket : Z) (first : Trade) (more : list Trade) :
  forall (a : Aggregator) (c : Candle) (rest : list Trade),
    currentCandle a = Some c -> summarises bucket c first rest ->
    (forall t, In t more ->
       candleTimeOf (getTimeframePeriod (timeframe a)) t = Some bucket) ->
    exists c', currentCandle (aggregateTrades a more) = Some c'
      /\ summarises bucket c' first (rest ++ more).
Proof.
  unfold aggregateTrades.
  induction more as [| t more IH]; intros a c rest Hc Hsum Hall; cbn [fold_left].
  - exists c. rewrite app_nil_r. auto.
  - pose proof (aggregateTrade_same_bucket a c t bucket Hc (sum_timestamp _ _ _ _ Hsum)
                  (Hall t (or_introl eq_refl))) as Hstep.
    destruct (IH (aggregateTrade a t) _ (rest ++ [t]) Hstep
                (summarises_next bucket c first t rest Hsum)) as (c' & Hc' & Hsum').
    + intros t' Ht'. rewrite aggregateTrade_timeframe. apply Hall. right. exact Ht'.
    + exists c'. rewrite <- app_assoc in Hsum'. auto.
Qed.

End CandleInvariant.

(** C8.  Trades of one bucket, ingested in order by an aggregator whose live
    candle (if any) belongs to another bucket, leave a candle whose open is
    the first price, close the last price, high the maximum and low the
    minimum of the prices, volume the sum of the sizes and trade count the
    number of trades; hence low <= open <= high and low <= close <= high.
    And one more trade of that bucket keeps the summary, whatever state the
    summarising candle is held in. *)
Theorem candle_summarises_bucket :
  (forall (a : Aggregator) (bucket : Z) (first : Trade) (rest : list Trade),
     (forall c, currentCandle a = Some c -> timestamp c <> Some bucket) ->
     (forall t, In t (first :: rest) ->
        candleTimeOf (getTimeframePeriod (timeframe a)) t = Some bucket) ->
     exists c, currentCandle (aggregateTrades a (first :: rest)) = Some c
       /\ summarises bucket c first rest
       /\ (low c <= open c <= high c)%Q /\ (low c <= close c <= high c)%Q)
  /\ (forall (a : Aggregator) (bucket : Z) (c : Candle) (first next : Trade)
        (rest : list Trade),
        currentCandle a = Some c -> summarises bucket c first rest ->
        candleTimeOf (getTimeframePeriod (timeframe a)) next = Some bucket ->
        exists c', currentCandle (aggregateTrade a next) = Some c'
          /\ summarises bucket c' first (rest ++ [next])).
Proof.
  split.
  - intros a bucket first rest Hfresh Hall.
    pose proof (aggregateTrade_new_bucket a first bucket Hfresh
                  (Hall first (or_introl eq_refl))) as Hfirst.
    destruct (aggregateTrades_same_bucket bucket first rest
                (aggregateTrade a first) _ [] Hfirst (summarises_first bucket first))
      as (c & Hc & Hsum).
    + intros t Ht. rewrite aggregateTrade_timeframe. apply Hall. right. exact Ht.
    + exists c. split; [exact Hc |]. split; [exact Hsum |].
      exact (summarises_bounds _ _ _ _ Hsum).
  - intros a bucket c first next rest Hc Hsum Hb.
    eexists. split.
    + apply (aggregateTrade_same_bucket a c next bucket Hc
               (sum_timestamp _ _ _ _ Hsum) Hb).
    + apply summarises_next, Hsum.
Qed.

Lemma candle_summarises_bucket_witness :
  exists c,
    currentCandle
      (aggregateTrades
         {| timeframe := "1m"; currentCandle := None; agg_trades := [] |}
         [ {| t_timestamp := 0; t_price := 10; t_size := 1 |};
           {| t_timestamp := 30000; t_price := 12; t_size := 2 |} ])
    = Some c
    /\ open c = 10%Q /\ close c = 12%Q /\ trades c = 2%nat
    /\ (low c <= open c <= high c)%Q.
Proof.
  destruct (proj1 candle_summarises_bucket
              {| timeframe := "1m"; currentCandle := None; agg_trades := [] |}
              0
              {| t_timestamp := 0; t_price := 10; t_size := 1 |}
              [ {| t_timestamp := 30000; t_price := 12; t_size := 2 |} ])
    as (c & Hc & Hsum & Hopen & _).
  - intros c Hc. discriminate Hc.
  - intros t [<- | [<- | []]]; reflexivity.
  - exists c. split; [exact Hc |].
    destruct Hsum as [_ Ho Hcl _ _ _ Hn].
    split; [exact Ho |]. split; [exact Hcl |]. split; [exact Hn | exact Hopen].
Defined.

(** C1.  Trades at 0 s, 30 s and 65 s with prices 10, 12 and 9, ingested in
    order by a fresh one-minute aggregator: an update at 0 s with
    O=H=L=C=10, an update at 30 s with O=10, H=12, L=10, C=12, then the
    close of the candle of bucket 0 followed by an update at 65 s that
    carries a fresh candle with O=H=L=C=9, the third trade's size as volume
    and a trade count of 1. *)
Theorem three_trades_one_minute (s1 s2 s3 : Q) :
  let fresh := {| timeframe := "1m"; currentCandle := None; agg_trades := [] |} in
  let first := {| timestamp := Some 0; open := 10; high := 10; low := 10;
                  close := 10; volume := s1; trades := 1 |} in
  let second := {| timestamp := Some 0; open := 10; high := 12; low := 10;
                   close := 12; volume := (s1 + s2)%Q; trades := 2 |} in
  let third := {| timestamp := Some 60; open := 9; high := 9; low := 9;
                  close := 9; volume := s3; trades := 1 |} in
  getTimeframePeriod (timeframe fresh) = 60
  /\ ingestAll fresh
       [ {| t_timestamp := 0; t_price := 10; t_size := s1 |};
         {| t_timestamp := 30000; t_price := 12; t_size := s2 |};
         {| t_timestamp := 65000; t_price := 9; t_size := s3 |} ]
     = ({| timeframe := "1m"; currentCandle := Some third; agg_trades := [] |},
        [ EvUpdate 0 first; EvUpdate 30000 second;
          EvClose second; EvUpdate 65000 third ]).
Proof.
  split; reflexivity.
Qed.

(** ** Rate-limited price updates *)

Section RateLimit.

Import ChartContainer.

Lemma consistent_mounted (sym : string) : consistent (mounted sym).
Proof.
  constructor; cbn.
  - discriminate.
  - constructor.
  - constructor.
Qed.

Lemma queuePriceUpdate_symbolProp (now : Z) (b : BestBidAsk) (s : State) :
  symbolProp (queuePriceUpdate now b s) = symbolProp s.
Proof.
  unfold queuePriceUpdate. destruct (negb _); reflexivity.
Qed.

Lemma queuePriceUpdate_consistent (now : Z) (b : BestBidAsk) (s : State) :
  consistent s -> consistent (queuePriceUpdate now b s).
Proof.
  intros [Ht Hl Hs]. unfold queuePriceUpdate.
  destruct (negb _); [constructor; assumption |].
  constructor; cbn; try assumption.
  intros due Hdue. inversion Hdue; subst. unfold minIntervalMillis in *. lia.
Qed.

(** A later value for the component's symbol overwrites the queue and the
    timeout: the earlier call might as well not have happened. *)
Lemma queuePriceUpdate_overwrites (t1 t2 : Z) (v1 v2 : BestBidAsk) (s : State) :
  symbol v2 = symbolProp s ->
  queuePriceUpdate t2 v2 (queuePriceUpdate t1 v1 s) = queuePriceUpdate t2 v2 s.
Proof.
  intros Hsym. unfold queuePriceUpdate at 1 3.
  rewrite queuePriceUpdate_symbolProp, Hsym, String.eqb_refl. cbn [negb].
  unfold queuePriceUpdate.
  destruct (negb (String.eqb (symbol v1) (symbolProp s))); reflexivity.
Qed.

(** [processPriceUpdate] either leaves the state alone, or renders the queued
    value, empties the queue and stamps the time. *)
Lemma processPriceUpdate_cases (now : Z) (ok : bool) (s : State) :
  processPriceUpdate now ok s = s
  \/ exists b c last',
       priceUpdateQueue s = Some b
       /\ processPriceUpdate now ok s
          = {| symbolProp := symbolProp s;
               selectedTimeframe := selectedTimeframe s;
               candleSeries := candleSeries s;
               lastCandle := Some last';
               priceUpdateQueue := None;
               priceUpdateTimer := priceUpdateTimer s;
               lastUpdateTime := now;
               delivered := {| d_time := now; d_value := b; d_candle := c |}
                            :: delivered s;
               currentPrice := currentPrice s;
               candleUpdates := candleUpdates s |}.
Proof.
  unfold processPriceUpdate.
  destruct (priceUpdateQueue s) as [b |]; [| left; reflexivity].
  destruct (candleSeries s); [| left; reflexivity].
  destruct (lastCandle s) as [[lastTime candle] |]; [| left; reflexivity].
  destruct (midPrice b) as [price |]; [| left; reflexivity].
  cbv zeta. destruct ok; [| left; reflexivity].
  right. eexists _, _, _. split; reflexivity.
Qed.

Lemma fire_consistent (now due : Z) (ok : bool) (s : State) :
  consistent s -> priceUpdateTimer s = Some due -> due <= now ->
  consistent (processPriceUpdate now ok (clear_timer s))
  /\ symbolProp (processPriceUpdate now ok (clear_timer s)) = symbolProp s.
Proof.
  intros [Ht Hl Hs] Hdue Hle. specialize (Ht due Hdue).
  assert (Hlate : lastUpdateTime s + 250 <= now) by (unfold minIntervalMillis in Ht; lia).
  destruct (processPriceUpdate_cases now ok (clear_timer s))
    as [-> | (b & c & last' & _ & ->)]; cbn.
  - split; [| reflexivity]. constructor; cbn; [discriminate | assumption ..].
  - split; [| reflexivity]. constructor; cbn.
    + discriminate.
    + constructor; [cbn; lia |].
      eapply Forall_impl; [exact Hl |]. cbn. intros d Hd. lia.
    + constructor; [exact Hs |].
      eapply Forall_impl; [exact Hl |]. cbn. intros d Hd.
      unfold minIntervalMillis. lia.
Qed.

(** [handleCandleUpdate] leaves alone all that the rate limiter reads and
    writes. *)
Lemma handleCandleUpdate_limiter (now : Z) (candle : Candle) (tf : string)
    (ok : bool) (s : State) :
  symbolProp (handleCandleUpdate now candle tf ok s) = symbolProp s.
Proof.
  unfold handleCandleUpdate. repeat case_if; reflexivity.
Qed.

Lemma handleCandleUpdate_consistent (now : Z) (candle : Candle) (tf : string)
    (ok : bool) (s : State) :
  consistent s -> consistent (handleCandleUpdate now candle tf ok s).
Proof.
  intros [Ht Hl Hs]. unfold handleCandleUpdate.
  repeat case_if; constructor; assumption.
Qed.

Lemma step_consistent (s s' : State) (e : Event) :
  consistent s -> step s e = Some s' ->
  consistent s' /\ symbolProp s' = symbolProp s.
Proof.
  intros Hc.
  destruct e as [now b | now ok | now tf series last | now candle tf ok];
    cbn [step].
  - intros Heq; inversion Heq; subst.
    split; [apply queuePriceUpdate_consistent, Hc | apply queuePriceUpdate_symbolProp].
  - destruct (priceUpdateTimer s) as [due |] eqn:Hdue; [| discriminate].
    destruct (Z.leb_spec due now) as [Hle | _]; [| discriminate].
    intros Heq; inversion Heq; subst. eapply fire_consistent; eassumption.
  - intros Heq; inversion Heq; subst. split; [| reflexivity].
    destruct Hc as [Ht Hl Hs]. constructor; assumption.
  - intros Heq; inversion Heq; subst.
    split; [apply handleCandleUpdate_consistent, Hc
           | apply handleCandleUpdate_limiter].
Qed.

Lemma run_consistent (events : list Event) :
  forall clock s s', consistent s -> run clock s events = Some s' ->
    consistent s' /\ symbolProp s' = symbolProp s.
Proof.
  induction events as [| e rest IH]; intros clock s s' Hc; cbn [run].
  - intros Heq; inversion Heq; subst. auto.
  - destruct (clock <=? event_time e); [| discriminate].
    destruct (step s e) as [s1 |] eqn:Hstep; [| discriminate].
    destruct (step_consistent _ _ _ Hc Hstep) as [Hc1 Hsym1].
    intros Hrun. destruct (IH _ _ _ Hc1 Hrun) as [Hc' Hsym'].
    split; [exact Hc' | congruence].
Qed.

Lemma same_but_queue_fields (a b : State) :
  same_but_queue a b ->
  symbolProp a = symbolProp b /\ selectedTimeframe a = selectedTimeframe b
  /\ candleSeries a = candleSeries b /\ lastCandle a = lastCandle b
  /\ lastUpdateTime a = lastUpdateTime b /\ delivered a = delivered b
  /\ currentPrice a = currentPrice b /\ candleUpdates a = candleUpdates b.
Proof.
  unfold same_but_queue, set_queue. intros H. inversion H. tauto.
Qed.

Lemma same_but_queue_intro (a b : State) :
  symbolProp a = symbolProp b -> selectedTimeframe a = selectedTimeframe b ->
  candleSeries a = candleSeries b -> lastCandle a = lastCandle b ->
  lastUpdateTime a = lastUpdateTime b -> delivered a = delivered b ->
  currentPrice a = currentPrice b -> candleUpdates a = candleUpdates b ->
  same_but_queue a b.
Proof.
  unfold same_but_queue, set_queue. intros. congruence.
Qed.

Lemma same_but_queue_publish (now : Z) (v : BestBidAsk) (s : State) :
  same_but_queue (queuePriceUpdate now v s) s.
Proof.
  unfold queuePriceUpdate. destruct (negb _); reflexivity.
Qed.

(** A value for the component's symbol overwrites the queue and the
    timeout: what was queued before does not matter. *)
Lemma queuePriceUpdate_same (now : Z) (v : BestBidAsk) (a b : State) :
  same_but_queue a b -> symbol v = symbolProp b ->
  queuePriceUpdate now v a = queuePriceUpdate now v b.
Proof.
  intros Hab Hsym.
  destruct (same_but_queue_fields _ _ Hab)
    as (H1 & H2 & H3 & H4 & H5 & H6 & H7 & H8).
  unfold queuePriceUpdate. rewrite H1, Hsym, String.eqb_refl. cbn [negb].
  unfold set_queue. congruence.
Qed.

Lemma step_quiet_symbolProp (e : Event) (s s' : State) :
  fires e = false -> step s e = Some s' -> symbolProp s' = symbolProp s.
Proof.
  intros He Hstep.
  destruct e as [now v | now ok | now tf series last | now candle tf ok];
    [| discriminate He | |]; cbn [step] in Hstep; inversion Hstep; subst.
  - apply queuePriceUpdate_symbolProp.
  - reflexivity.
  - apply handleCandleUpdate_limiter.
Qed.

(** An event other than the timeout firing cannot fail, and it keeps two
    states that differ at most in the queue and the timeout that way. *)
Lemma step_same_but_queue (e : Event) (a b : State) :
  fires e = false -> same_but_queue a b ->
  exists a' b', step a e = Some a' /\ step b e = Some b'
                /\ same_but_queue a' b'.
Proof.
  intros Hfire Hab.
  destruct (same_but_queue_fields _ _ Hab)
    as (H1 & H2 & H3 & H4 & H5 & H6 & H7 & H8).
  destruct e as [now v | now ok | now tf series last | now candle tf ok];
    [| discriminate Hfire | |]; cbn [step]; eexists _, _;
    (split; [reflexivity |]); (split; [reflexivity |]).
  - unfold queuePriceUpdate. rewrite H1.
    destruct (negb _); [exact Hab |].
    apply same_but_queue_intro; cbn; assumption.
  - apply same_but_queue_intro; cbn; congruence.
  - unfold handleCandleUpdate. rewrite H2, H3.
    repeat case_if; try exact Hab;
      apply same_but_queue_intro; cbn; congruence.
Qed.

(** A value queued before events among which the timeout does not fire, and
    before a later value for the component's symbol, leaves no trace: the
    future is that of the schedule without it. *)
Lemma run_same_but_queue (mid : list Event) :
  forall (clock t2 : Z) (v2 : BestBidAsk) (a b : State) (rest : list Event),
    forallb (fun e => negb (fires e)) mid = true ->
    same_but_queue a b -> symbol v2 = symbolProp b ->
    run clock a (mid ++ Publish t2 v2 :: rest)
    = run clock b (mid ++ Publish t2 v2 :: rest).
Proof.
  induction mid as [| e mid IH]; intros clock t2 v2 a b rest Hmid Hab Hsym.
  - cbn [app run event_time step].
    rewrite (queuePriceUpdate_same t2 v2 a b Hab Hsym). reflexivity.
  - cbn [forallb] in Hmid. apply andb_prop in Hmid as [He Hmid].
    apply negb_true_iff in He.
    destruct (step_same_but_queue e a b He Hab) as (a' & b' & Ha & Hb & Hab').
    cbn [app run]. rewrite Ha, Hb.
    destruct (clock <=? event_time e); [| reflexivity].
    apply IH; [exact Hmid | exact Hab' |].
    rewrite Hsym. symmetry. exact (step_quiet_symbolProp _ _ _ He Hb).
Qed.

Lemma run_overwrites (t1 t2 : Z) (v1 v2 : BestBidAsk) (s : State)
    (mid rest : list Event) :
  symbol v2 = symbolProp s ->
  forallb (fun e => negb (fires e)) mid = true ->
  run t1 s (Publish t1 v1 :: mid ++ Publish t2 v2 :: rest)
  = run t1 s (mid ++ Publish t2 v2 :: rest).
Proof.
  intros Hsym Hmid. cbn [run event_time step]. rewrite Z.leb_refl.
  apply run_same_but_queue;
    [exact Hmid | apply same_but_queue_publish | exact Hsym].
Qed.

(** Events among which the timeout does not fire deliver nothing and leave
    the clock of the last delivery alone. *)
Lemma run_quiet (mid : list Event) :
  forall (clock : Z) (s s' : State) (rest : list Event),
    forallb (fun e => negb (fires e)) mid = true ->
    consistent s ->
    run clock s (mid ++ rest) = Some s' ->
    exists clock' s1,
      run clock' s1 rest = Some s'
      /\ consistent s1 /\ symbolProp s1 = symbolProp s
      /\ delivered s1 = delivered s /\ lastUpdateTime s1 = lastUpdateTime s.
Proof.
  induction mid as [| e mid IH]; intros clock s s' rest Hmid Hc Hrun.
  - exists clock, s. cbn [app] in Hrun.
    split; [exact Hrun |]. split; [exact Hc |]. auto.
  - cbn [forallb] in Hmid. apply andb_prop in Hmid as [He Hmid].
    apply negb_true_iff in He.
    cbn [app run] in Hrun.
    destruct (clock <=? event_time e); [| discriminate].
    destruct (step s e) as [s0 |] eqn:Hstep; [| discriminate].
    destruct (step_consistent _ _ _ Hc Hstep) as [Hc0 Hsym0].
    destruct (IH _ _ _ _ Hmid Hc0 Hrun) as (clock' & s1 & Hrest & Hc1 & Hs1 & Hd1 & Hl1).
    exists clock', s1. split; [exact Hrest |]. split; [exact Hc1 |].
    assert (Hsame : delivered s0 = delivered s
                    /\ lastUpdateTime s0 = lastUpdateTime s).
    { destruct e as [now v | now ok | now tf series last | now candle tf ok];
        [| discriminate He | |]; cbn [step] in Hstep; inversion Hstep; subst.
      - unfold queuePriceUpdate. destruct (negb _); split; reflexivity.
      - split; reflexivity.
      - unfold handleCandleUpdate. repeat case_if; split; reflexivity. }
    destruct Hsame as [Hd0 Hl0].
    split; [congruence |]. split; congruence.
Qed.

Lemma publish_then_fire (t2 t3 : Z) (v2 : BestBidAsk) (ok : bool) (s s' : State) :
  consistent s -> symbol v2 = symbolProp s ->
  run t2 s [Publish t2 v2; TimerFires t3 ok] = Some s' ->
  (delivered s' = delivered s
   \/ exists c, delivered s'
                = {| d_time := t3; d_value := v2; d_candle := c |} :: delivered s)
  /\ t2 <= t3 /\ lastUpdateTime s + minIntervalMillis <= t3.
Proof.
  intros Hc Hsym. cbn [run event_time step]. rewrite Z.leb_refl.
  destruct (Z.leb_spec t2 t3) as [Hle | _]; [| discriminate].
  unfold queuePriceUpdate at 1. rewrite Hsym, String.eqb_refl. cbn [negb].
  cbn [priceUpdateTimer set_queue].
  match goal with |- context [?d <=? t3] => destruct (Z.leb_spec d t3) as [Hdue | _] end;
    [| discriminate].
  intros Heq; inversion Heq; subst s'; clear Heq.
  split; [| split; [exact Hle | unfold minIntervalMillis in *; lia]].
  match goal with |- context [processPriceUpdate t3 ok ?st] =>
    destruct (processPriceUpdate_cases t3 ok st) as [-> | (b & c & last' & Hq & ->)]
  end; cbn.
  - left. unfold queuePriceUpdate. rewrite Hsym, String.eqb_refl. reflexivity.
  - right. exists c. unfold queuePriceUpdate in *.
    rewrite Hsym, String.eqb_refl in *. cbn in *. congruence.
Qed.

End RateLimit.

Section RateLimitClaims.

Import ChartContainer.

Lemma run_from_event_time (clock : Z) (s : State) (e : Event) (rest : list Event) :
  clock <= event_time e ->
  run clock s (e :: rest) = run (event_time e) s (e :: rest).
Proof.
  intros Hle. cbn [run]. rewrite Z.leb_refl.
  destruct (Z.leb_spec clock (event_time e)); [reflexivity | lia].
Qed.

(** C2, as stated, fails.  The chart has loaded its history and has been
    quiet for more than 250 ms; [quote1] arrives at 1000 ms and its timeout,
    set with delay 0, fires at once; [quote2] arrives 100 ms later and is
    rendered at 1250 ms.  Both values are delivered, the first one
    included. *)
Lemma quiet_chart_delivers_both :
  exists s,
    run 0 (mounted "BTC-PERP")
      [ historyLoaded;
        Publish 1000 quote1; TimerFires 1000 true;
        Publish 1100 quote2; TimerFires 1250 true ] = Some s
    /\ map (fun d => (d_time d, d_value d)) (delivered s)
       = [ (1250, quote2); (1000, quote1) ]
    /\ 1100 - 1000 < minIntervalMillis.
Proof.
  eexists. split; [vm_compute; reflexivity |]. split; reflexivity.
Qed.

(** C2, amended.  In every state the component can reach, candle updates
    of the chart socket interleaved at will: the deliveries of best bid/ask
    values to the chart are at least 250 ms apart; a candle of the selected
    timeframe, in contrast, is handed to the chart at once, whatever the
    time of the last delivery, and changes nothing the rate limiter reads;
    a value published before a later value for the chart's symbol, with no
    timeout firing in between, is replaced for good (the future is that of
    the schedule without it); and when the timeout then fires, it fires no
    earlier than 250 ms after the last delivery and renders the later value
    or nothing. *)
Theorem rate_limited_updates (sym : string) (clock : Z) (events : list Event)
    (s : State) :
  run clock (mounted sym) events = Some s ->
  spaced (delivered s)
  /\ (forall (t : Z) (candle : Candle) (chartAccepts : bool),
        candleSeries s = true ->
        exists s',
          step s (CandleUpdate t candle (selectedTimeframe s) chartAccepts)
          = Some s'
          /\ (exists bar,
                candleUpdates s'
                = {| cu_time := t; cu_candle := bar |} :: candleUpdates s
                /\ cc_close bar = close candle)
          /\ delivered s' = delivered s
          /\ lastUpdateTime s' = lastUpdateTime s
          /\ priceUpdateQueue s' = priceUpdateQueue s
          /\ priceUpdateTimer s' = priceUpdateTimer s
          /\ lastCandle s' = lastCandle s)
  /\ forall (t1 t2 : Z) (v1 v2 : BestBidAsk) (mid : list Event),
       symbol v2 = sym ->
       forallb (fun e => negb (fires e)) mid = true ->
       (forall rest,
          run t1 s (Publish t1 v1 :: mid ++ Publish t2 v2 :: rest)
          = run t1 s (mid ++ Publish t2 v2 :: rest))
       /\ forall (t3 : Z) (chartAccepts : bool) (s' : State),
            run t1 s (Publish t1 v1
                      :: mid ++ [Publish t2 v2; TimerFires t3 chartAccepts])
            = Some s' ->
            (delivered s' = delivered s
             \/ exists c, delivered s'
                  = {| d_time := t3; d_value := v2; d_candle := c |} :: delivered s)
            /\ t2 <= t3
            /\ lastUpdateTime s + minIntervalMillis <= t3
            /\ spaced (delivered s').
Proof.
  intros Hrun.
  destruct (run_consistent _ _ _ _ (consistent_mounted sym) Hrun)
    as [Hc Hsym]. cbn [mounted symbolProp] in Hsym.
  split; [apply (log_spaced _ Hc) |]. split.
  - intros t candle ok Hseries. eexists. split; [reflexivity |].
    unfold handleCandleUpdate. rewrite String.eqb_refl, Hseries. cbn.
    split; [eexists; split; reflexivity |]. repeat split.
  - intros t1 t2 v1 v2 mid Hv2 Hmid. rewrite <- Hsym in Hv2.
    split; [intros rest; apply run_overwrites; assumption |].
    intros t3 ok s' Hrun'.
    destruct (run_consistent _ _ _ _ Hc Hrun') as [Hc' _].
    rewrite run_overwrites in Hrun' by assumption.
    destruct (run_quiet _ _ _ _ _ Hmid Hc Hrun')
      as (clock' & s1 & Hrest & Hc1 & Hs1 & Hd1 & Hl1).
    assert (Hle : clock' <= t2).
    { cbn [run event_time] in Hrest.
      destruct (Z.leb_spec clock' t2); [assumption | discriminate]. }
    rewrite (run_from_event_time clock' s1 (Publish t2 v2)) in Hrest by exact Hle.
    cbn [event_time] in Hrest. rewrite <- Hs1 in Hv2.
    destruct (publish_then_fire t2 t3 v2 ok s1 s' Hc1 Hv2 Hrest)
      as (Hd & H23 & Hlate).
    rewrite Hd1, Hl1 in *.
    repeat split; try assumption. apply (log_spaced _ Hc').
Qed.

Lemma rate_limited_updates_witness :
  exists s,
    run 0 (mounted "BTC-PERP")
      [ historyLoaded;
        Publish 1000 quote1; TimerFires 1000 true;
        CandleUpdate 1001 minuteCandle "1m" true;
        Publish 1100 quote2; TimerFires 1250 true ] = Some s
    /\ map d_time (delivered s) = [1250; 1000]
    /\ map cu_time (candleUpdates s) = [1001]
    /\ spaced (delivered s).
Proof.
  destruct (run 0 (mounted "BTC-PERP")
              [ historyLoaded;
                Publish 1000 quote1; TimerFires 1000 true;
                CandleUpdate 1001 minuteCandle "1m" true;
                Publish 1100 quote2; TimerFires 1250 true ])
    as [s |] eqn:Hrun; [| vm_compute in Hrun; discriminate Hrun].
  exists s. split; [reflexivity |].
  pose proof (proj1 (rate_limited_updates _ _ _ _ Hrun)) as Hspaced.
  vm_compute in Hrun. injection Hrun as <-.
  split; [reflexivity |]. split; [reflexivity | exact Hspaced].
Defined.

End RateLimitClaims.

(** ** The health check *)

Section HealthCheck.

Import ChartContainer.





End HealthCheck.

(** ** The market list's subscriptions *)

Section MarketListFacts.

Import MarketList.










End MarketListFacts.


(** ** The subscription registry *)

Section RegistryFacts.

Import Registry.

Variable cap : nat.

Lemma subscribe_existing (k : Key) (n : nat) (subs : gmap Key nat) :
  subs !! k = Some n ->
  subscribe cap k subs
  = {| registry := <[k := S n]> subs; upstream := []; result := Refcount (S n) |}.
Proof. intros H. unfold subscribe. rewrite H. reflexivity. Qed.

Lemma subscribe_new (k : Key) (subs : gmap Key nat) :
  subs !! k = None -> (activeCount subs < cap)%nat ->
  subscribe cap k subs
  = {| registry := <[k := 1%nat]> subs; upstream := [UpSubscribe k];
       result := Refcount 1 |}.
Proof.
  intros H Hlt. unfold subscribe. rewrite H.
  destruct (decide (cap <= activeCount subs)%nat); [lia | reflexivity].
Qed.

Lemma subscribe_full (k : Key) (subs : gmap Key nat) :
  subs !! k = None -> (cap <= activeCount subs)%nat ->
  subscribe cap k subs
  = {| registry := subs; upstream := [];
       result := Rejected SubscriptionLimitExceeded |}.
Proof.
  intros H Hge. unfold subscribe. rewrite H.
  destruct (decide (cap <= activeCount subs)%nat); [reflexivity | lia].
Qed.

Lemma size_insert_existing (k : Key) (n m : nat) (subs : gmap Key nat) :
  subs !! k = Some n -> size (<[k := m]> subs) = size subs.
Proof. intros H. apply map_size_insert_Some. eauto. Qed.

Lemma subscribe_within_cap (k : Key) (subs : gmap Key nat) :
  (activeCount subs <= cap)%nat ->
  (activeCount (registry (subscribe cap k subs)) <= cap)%nat.
Proof.
  intros Hle. unfold subscribe, activeCount in *.
  destruct (subs !! k) as [n |] eqn:Hk; cbn [registry].
  - rewrite (size_insert_existing k n _ subs Hk). exact Hle.
  - destruct (decide (cap <= size subs)%nat); cbn [registry]; [exact Hle |].
    rewrite map_size_insert_None by exact Hk. lia.
Qed.

Lemma unsubscribe_within_cap (k : Key) (subs : gmap Key nat) :
  (activeCount subs <= cap)%nat ->
  (activeCount (registry (unsubscribe k subs)) <= cap)%nat.
Proof.
  intros Hle. unfold unsubscribe, activeCount in *.
  destruct (subs !! k) as [n |] eqn:Hk; cbn [registry]; [| exact Hle].
  destruct (Nat.pred n); cbn [registry].
  - rewrite map_size_delete_Some by eauto. lia.
  - rewrite (size_insert_existing k n _ subs Hk). exact Hle.
Qed.

Lemma runOps_within_cap (ops : list Op) :
  forall subs, (activeCount subs <= cap)%nat ->
    (activeCount (fst (fst (runOps cap ops subs))) <= cap)%nat.
Proof.
  induction ops as [| op ops IH]; intros subs Hle; cbn [runOps]; [exact Hle |].
  assert (Hnext : (activeCount (registry (apply cap op subs)) <= cap)%nat).
  { destruct op; cbn [apply];
      [apply subscribe_within_cap | apply unsubscribe_within_cap]; exact Hle. }
  specialize (IH _ Hnext).
  destruct (runOps cap ops (registry (apply cap op subs))) as [[final cmds] results].
  exact IH.
Qed.

Lemma runOps_app (ops1 ops2 : list Op) :
  forall subs,
    runOps cap (ops1 ++ ops2) subs
    = let '(m1, c1, r1) := runOps cap ops1 subs in
      let '(m2, c2, r2) := runOps cap ops2 m1 in
      (m2, c1 ++ c2, r1 ++ r2).
Proof.
  induction ops1 as [| op ops1 IH]; intros subs; cbn [runOps app].
  - destruct (runOps cap ops2 subs) as [[m2 c2] r2]. reflexivity.
  - rewrite IH.
    destruct (runOps cap ops1 (registry (apply cap op subs))) as [[m1 c1] r1].
    destruct (runOps cap ops2 m1) as [[m2 c2] r2].
    rewrite app_assoc. reflexivity.
Qed.

(** Subscribing to distinct new keys while there is room: each is created
    with one reference and one upstream command. *)
Lemma subscribe_distinct (keys : list Key) :
  forall subs,
    NoDup keys -> (forall k, In k keys -> subs !! k = None) ->
    (activeCount subs + List.length keys <= cap)%nat ->
    exists final,
      runOps cap (map Subscribe keys) subs
      = (final, map UpSubscribe keys, repeat (Refcount 1) (List.length keys))
      /\ activeCount final = (activeCount subs + List.length keys)%nat
      /\ forall k, ~ In k keys -> final !! k = subs !! k.
Proof.
  induction keys as [| k keys IH]; intros subs Hnd Hfresh Hroom.
  - exists subs. cbn. unfold activeCount. repeat split. lia.
  - cbn [List.length] in Hroom.
    apply NoDup_cons in Hnd as [Hk Hnd]. rewrite list_elem_of_In in Hk.
    cbn [map runOps apply].
    rewrite subscribe_new by first [apply Hfresh; left; reflexivity | lia].
    cbn [registry upstream result].
    destruct (IH (<[k := 1%nat]> subs) Hnd) as (final & Hrun & Hsize & Hother).
    + intros k' Hk'. rewrite lookup_insert_ne by (intros ->; contradiction).
      apply Hfresh. right. exact Hk'.
    + unfold activeCount in *.
      rewrite map_size_insert_None by (apply Hfresh; left; reflexivity). lia.
    + exists final. rewrite Hrun. split; [reflexivity |]. split.
      * unfold activeCount in *. rewrite Hsize.
        rewrite map_size_insert_None by (apply Hfresh; left; reflexivity).
        cbn [List.length]. lia.
      * intros k' Hk'. rewrite Hother by (intros H; apply Hk'; right; exact H).
        apply lookup_insert_ne. intros ->. apply Hk'. left. reflexivity.
Qed.

(** Further subscriptions to a live key only count references. *)
Lemma subscribe_again (k : Key) (times : nat) :
  forall (n : nat) (subs : gmap Key nat),
    subs !! k = Some n ->
    runOps cap (repeat (Subscribe k) times) subs
    = (<[k := (n + times)%nat]> subs, [], map Refcount (seq (S n) times)).
Proof.
  induction times as [| times IH]; intros n subs Hk; cbn [repeat runOps seq map].
  - rewrite Nat.add_0_r, insert_id by exact Hk. reflexivity.
  - cbn [apply]. rewrite (subscribe_existing k n subs Hk).
    cbn [registry upstream result].
    rewrite (IH (S n) (<[k := S n]> subs)) by apply lookup_insert_eq.
    rewrite insert_insert_eq. cbn [app].
    replace (S n + times)%nat with (n + S times)%nat by lia. reflexivity.
Qed.

End RegistryFacts.

(** C3.  For any cap: a subscribe for an unknown key when the registry
    already holds [cap] subscriptions is rejected with
    [SubscriptionLimitExceeded], leaves the registry as it was and issues no
    upstream command; no sequence of calls takes the number of live
    subscriptions above the cap; and of cap+1 distinct keys subscribed from
    an empty registry, the first cap succeed with one upstream command each
    and the last is rejected with none. *)
Theorem cap_enforced (cap : nat) :
  (forall (subs : gmap Registry.Key nat) (k : Registry.Key),
     subs !! k = None -> (cap <= Registry.activeCount subs)%nat ->
     Registry.subscribe cap k subs
     = {| Registry.registry := subs; Registry.upstream := [];
          Registry.result := Registry.Rejected Registry.SubscriptionLimitExceeded |})
  /\ (forall (ops : list Registry.Op) (subs : gmap Registry.Key nat),
        (Registry.activeCount subs <= cap)%nat ->
        (Registry.activeCount (fst (fst (Registry.runOps cap ops subs))) <= cap)%nat)
  /\ (forall (keys : list Registry.Key) (k : Registry.Key),
        NoDup (keys ++ [k]) -> List.length keys = cap ->
        exists final,
          Registry.runOps cap (map Registry.Subscribe (keys ++ [k])) ∅
          = (final,
             map Registry.UpSubscribe keys,
             repeat (Registry.Refcount 1) cap
             ++ [Registry.Rejected Registry.SubscriptionLimitExceeded])
          /\ Registry.activeCount final = cap).
Proof.
  split; [| split].
  - intros subs k. apply subscribe_full.
  - intros ops subs. apply runOps_within_cap.
  - intros keys k Hnd Hlen.
    apply NoDup_app in Hnd as (Hnd & Hk & _).
    destruct (subscribe_distinct cap keys ∅ Hnd) as (final & Hrun & Hsize & Hother).
    + intros k' _. apply lookup_empty.
    + unfold Registry.activeCount. rewrite map_size_empty. lia.
    + exists final. unfold Registry.activeCount in *.
      rewrite map_size_empty in Hsize. cbn in Hsize.
      rewrite map_app, runOps_app, Hrun. cbn [map Registry.runOps Registry.apply].
      rewrite subscribe_full.
      * cbn. rewrite app_nil_r, Hlen. split; [reflexivity | lia].
      * rewrite Hother; [apply lookup_empty |].
        intros Hin. apply (Hk k); [apply list_elem_of_In, Hin | constructor].
      * unfold Registry.activeCount. lia.
Qed.

Lemma cap_enforced_witness :
  exists final,
    Registry.runOps 2
      (map Registry.Subscribe
         [ ("ticker", "BTC-PERP"); ("ticker", "ETH-PERP"); ("ticker", "SOL-PERP") ]%string)
      ∅
    = (final,
       [ Registry.UpSubscribe ("ticker", "BTC-PERP")%string;
         Registry.UpSubscribe ("ticker", "ETH-PERP")%string ],
       [ Registry.Refcount 1; Registry.Refcount 1;
         Registry.Rejected Registry.SubscriptionLimitExceeded ])
    /\ Registry.activeCount final = 2%nat.
Proof.
  apply (proj2 (proj2 (cap_enforced 2))
           [ ("ticker", "BTC-PERP"); ("ticker", "ETH-PERP") ]%string
           ("ticker", "SOL-PERP")%string).
  - cbn [app].
    apply NoDup_ListNoDup.
    repeat (apply List.NoDup_cons; [cbn; intuition discriminate |]).
    apply List.NoDup_nil.
  - reflexivity.
Defined.

(** C7.  A key that is not yet registered, with room under the cap, and
    N >= 1 subscribe calls for it: the first call issues the one upstream
    subscribe command, the later calls issue none, the i-th call returns
    refcount i, so the N-th returns N, and the registry ends with the key at
    refcount N. *)
Theorem subscribe_dedup (cap : nat) (subs : gmap Registry.Key nat)
    (k : Registry.Key) (N : nat) :
  subs !! k = None -> (Registry.activeCount subs < cap)%nat -> (1 <= N)%nat ->
  Registry.upstream (Registry.subscribe cap k subs) = [Registry.UpSubscribe k]
  /\ Registry.runOps cap (repeat (Registry.Subscribe k) N) subs
     = (<[k := N]> subs, [Registry.UpSubscribe k], map Registry.Refcount (seq 1 N))
  /\ nth_error (map Registry.Refcount (seq 1 N)) (N - 1) = Some (Registry.Refcount N).
Proof.
  intros Hk Hroom HN. destruct N as [| n]; [lia |].
  rewrite (subscribe_new cap k subs Hk Hroom). split; [reflexivity |]. split.
  - cbn [repeat Registry.runOps Registry.apply].
    rewrite (subscribe_new cap k subs Hk Hroom).
    cbn [Registry.registry Registry.upstream Registry.result].
    rewrite (subscribe_again cap k n 1 (<[k := 1%nat]> subs))
      by apply lookup_insert_eq.
    rewrite insert_insert_eq. reflexivity.
  - rewrite nth_error_map, nth_error_seq.
    destruct (Nat.ltb_spec (S n - 1) (S n)); [| lia].
    cbn [option_map]. f_equal. f_equal. lia.
Qed.

Lemma subscribe_dedup_witness :
  Registry.runOps Registry.defaultCap
    (repeat (Registry.Subscribe ("ticker", "BTC-PERP")%string) 3) ∅
  = (<[("ticker", "BTC-PERP")%string := 3%nat]> ∅,
     [ Registry.UpSubscribe ("ticker", "BTC-PERP")%string ],
     [ Registry.Refcount 1; Registry.Refcount 2; Registry.Refcount 3 ]).
Proof.
  refine (proj1 (proj2 (subscribe_dedup Registry.defaultCap ∅
                          ("ticker", "BTC-PERP")%string 3 _ _ _))).
  - apply lookup_empty.
  - unfold Registry.activeCount, Registry.defaultCap. rewrite map_size_empty. lia.
  - lia.
Defined.

(** ** Reconnect back-off *)

Section Backoff.

Import FeedConnection.

Lemma steps_retry_failed (maxF n : nat) :
  forall (a : nat) (rest : list Event),
    (a + n < maxF)%nat ->
    steps {| state := Reconnecting; attempt := a; maxFailures := maxF |}
          (Some (backoffMillis a)) (repeat RetryFailed n ++ rest)
    = steps {| state := Reconnecting; attempt := a + n; maxFailures := maxF |}
            (Some (backoffMillis (a + n))) rest.
Proof.
  induction n as [| n IH]; intros a rest Hlt; cbn [repeat app steps].
  - rewrite Nat.add_0_r. reflexivity.
  - cbn [step state attempt FeedConnection.maxFailures].
    destruct (Nat.leb_spec maxF (S a)); [lia |].
    rewrite (IH (S a)) by lia.
    replace (S a + n)%nat with (a + S n)%nat by lia. reflexivity.
Qed.

Lemma steps_drop_then_fail (maxF n : nat) (rest : list Event) :
  (n < maxF)%nat ->
  steps (connected maxF) None (Dropped :: repeat RetryFailed n ++ rest)
  = steps {| state := Reconnecting; attempt := n; maxFailures := maxF |}
          (Some (backoffMillis n)) rest.
Proof.
  intros Hlt. cbn [steps step connected state attempt FeedConnection.maxFailures].
  rewrite steps_retry_failed by lia. reflexivity.
Qed.

Lemma backoff_table (n : nat) :
  (n <= 6)%nat ->
  backoffMillis n = nth n [1000; 2000; 4000; 8000; 16000; 30000; 30000] 0.
Proof.
  intros Hn. do 7 (destruct n as [| n]; [reflexivity |]). lia.
Qed.

(** A failed connection ignores further failures and announces no wait. *)
Lemma steps_failed (a maxF n : nat) :
  steps {| state := Failed; attempt := a; maxFailures := maxF |} None
        (repeat RetryFailed n)
  = ({| state := Failed; attempt := a; maxFailures := maxF |}, None).
Proof.
  induction n as [| n IH]; cbn [repeat steps step state]; [reflexivity | exact IH].
Qed.

(** The failure that reaches the maximum ends the retries, and so does every
    failure after it. *)
Lemma steps_give_up (maxF m : nat) :
  (0 < maxF <= m)%nat ->
  steps (connected maxF) None (Dropped :: repeat RetryFailed m)
  = ({| state := Failed; attempt := maxF; maxFailures := maxF |}, None).
Proof.
  intros [Hpos Hle].
  replace m with ((maxF - 1) + S (m - maxF))%nat by lia.
  rewrite repeat_app, steps_drop_then_fail by lia.
  cbn [repeat steps step state attempt FeedConnection.maxFailures].
  replace (S (maxF - 1)) with maxF by lia.
  rewrite Nat.leb_refl. apply steps_failed.
Qed.

End Backoff.

(** C4, as stated, fails.  With the maximum of five attempts that the
    architecture report records for every socket, the fifth failure in a row
    puts the connection into the failed state and no wait is announced: for
    N = 5 and N = 6 there is no next attempt to wait for, although
    min(30 s, 1 s * 2^N) is 30 s. *)
Lemma documented_maximum_ends_backoff :
  FeedConnection.steps (FeedConnection.connected 5) None
    (FeedConnection.Dropped :: repeat FeedConnection.RetryFailed 5)
  = ({| FeedConnection.state := FeedConnection.Failed;
        FeedConnection.attempt := 5;
        FeedConnection.maxFailures := 5 |}, None)
  /\ FeedConnection.steps (FeedConnection.connected 5) None
       (FeedConnection.Dropped :: repeat FeedConnection.RetryFailed 6)
     = ({| FeedConnection.state := FeedConnection.Failed;
           FeedConnection.attempt := 5;
           FeedConnection.maxFailures := 5 |}, None)
  /\ FeedConnection.backoffMillis 5 = 30000
  /\ FeedConnection.backoffMillis 6 = 30000.
Proof.
  repeat split; reflexivity.
Qed.

(** C4, amended.  A connected feed drops and then fails to reconnect N times
    in a row.  While N is below the configured maximum of consecutive
    failures, it is reconnecting with attempt counter N and the wait
    announced last is min(30 s, 1 s * 2^N), that is 1, 2, 4, 8, 16, 30 and
    30 seconds for N = 0..6; a successful reconnect from there returns to the
    connected state with the counter at 0.  From the maximum on, the
    connection has failed and no wait is announced. *)
Theorem backoff_after_failures (maxFailures N : nat) :
  (N < maxFailures)%nat ->
  FeedConnection.steps (FeedConnection.connected maxFailures) None
    (FeedConnection.Dropped :: repeat FeedConnection.RetryFailed N)
  = ({| FeedConnection.state := FeedConnection.Reconnecting;
        FeedConnection.attempt := N;
        FeedConnection.maxFailures := maxFailures |},
     Some (Z.min 30000 (1000 * 2 ^ Z.of_nat N)))
  /\ ((N <= 6)%nat ->
      Z.min 30000 (1000 * 2 ^ Z.of_nat N)
      = nth N [1000; 2000; 4000; 8000; 16000; 30000; 30000] 0)
  /\ FeedConnection.steps (FeedConnection.connected maxFailures) None
       (FeedConnection.Dropped :: repeat FeedConnection.RetryFailed N
        ++ [FeedConnection.RetrySucceeded])
     = (FeedConnection.connected maxFailures, None)
  /\ forall M : nat,
       (maxFailures <= M)%nat ->
       FeedConnection.steps (FeedConnection.connected maxFailures) None
         (FeedConnection.Dropped :: repeat FeedConnection.RetryFailed M)
       = ({| FeedConnection.state := FeedConnection.Failed;
             FeedConnection.attempt := maxFailures;
             FeedConnection.maxFailures := maxFailures |}, None).
Proof.
  intros Hlt. split; [| split; [| split]].
  - rewrite <- (app_nil_r (repeat FeedConnection.RetryFailed N)).
    rewrite steps_drop_then_fail by exact Hlt. reflexivity.
  - apply backoff_table.
  - rewrite steps_drop_then_fail by exact Hlt. reflexivity.
  - intros M HM. apply steps_give_up. lia.
Qed.

Lemma backoff_after_failures_witness :
  FeedConnection.steps (FeedConnection.connected 5) None
    (FeedConnection.Dropped :: repeat FeedConnection.RetryFailed 4)
  = ({| FeedConnection.state := FeedConnection.Reconnecting;
        FeedConnection.attempt := 4;
        FeedConnection.maxFailures := 5 |},
     Some 16000)
  /\ FeedConnection.steps (FeedConnection.connected 5) None
       (FeedConnection.Dropped :: repeat FeedConnection.RetryFailed 4
        ++ [FeedConnection.RetrySucceeded])
     = (FeedConnection.connected 5, None).
Proof.
  pose proof (backoff_after_failures 5 4 ltac:(lia)) as (Hwait & _ & Hreset & _).
  split; [exact Hwait | exact Hreset].
Defined.

(** * Further properties of the sources *)

(** ** The aggregator on arbitrary trade sequences *)

Section AggregatorCoverage.

Lemma aggregateTrades_snoc (a : Aggregator) (ts : list Trade) (t : Trade) :
  aggregateTrades a (ts ++ [t]) = aggregateTrade (aggregateTrades a ts) t.
Proof. unfold aggregateTrades. rewrite fold_left_app. reflexivity. Qed.

Lemma aggregateTrades_app (a : Aggregator) (ts1 ts2 : list Trade) :
  aggregateTrades a (ts1 ++ ts2) = aggregateTrades (aggregateTrades a ts1) ts2.
Proof. unfold aggregateTrades. apply fold_left_app. Qed.

Lemma wellFormed_fresh (candleTime : option Z) (t : Trade) :
  wellFormed (freshCandle candleTime t).
Proof.
  unfold wellFormed, freshCandle. cbn.
  repeat split; first [apply Qle_refl | lia].
Qed.

Lemma aggregateTrade_wellFormed (a : Aggregator) (t : Trade) :
  (forall c, currentCandle a = Some c -> wellFormed c) ->
  exists c, currentCandle (aggregateTrade a t) = Some c
    /\ wellFormed c /\ close c = t_price t.
Proof.
  intros Hwf. unfold aggregateTrade. cbv zeta.
  set (ct := candleTimeOf (getTimeframePeriod (timeframe a)) t).
  destruct (currentCandle a) as [c |] eqn:Hc; cbn [currentCandle].
  - destruct (strict_neq (timestamp c) ct).
    + eexists. split; [reflexivity |]. split; [apply (wellFormed_fresh ct t) | reflexivity].
    + eexists. split; [reflexivity |]. split; [| reflexivity].
      destruct (Hwf c eq_refl) as ((Hlo & Hoh) & (Hlc & Hch) & Hn).
      unfold wellFormed. cbn. repeat split.
      * eapply Qle_trans; [apply Q.le_min_l | exact Hlo].
      * eapply Qle_trans; [exact Hoh | apply Q.le_max_l].
      * apply Q.le_min_r.
      * apply Q.le_max_r.
      * lia.
  - eexists. split; [reflexivity |]. split; [apply (wellFormed_fresh ct t) | reflexivity].
Qed.

End AggregatorCoverage.

(** X1.  Whatever the timeframe label (a zero period included) and whatever
    the order of the trades, an aggregator that starts with no candle or a
    well-formed one holds, after one or more trades, a candle with
    low <= open <= high, low <= close <= high and at least one trade, whose
    close is the price of the last trade. *)
Theorem live_candle_well_formed (a : Aggregator) (earlier : list Trade)
    (lastTrade : Trade) :
  (forall c, currentCandle a = Some c -> wellFormed c) ->
  exists c,
    currentCandle (aggregateTrades a (earlier ++ [lastTrade])) = Some c
    /\ wellFormed c /\ close c = t_price lastTrade.
Proof.
  intros Hwf. rewrite aggregateTrades_snoc.
  apply aggregateTrade_wellFormed.
  induction earlier as [| t ts IH] using rev_ind; [exact Hwf |].
  rewrite aggregateTrades_snoc. intros c Hc.
  destruct (aggregateTrade_wellFormed (aggregateTrades a ts) t IH)
    as (c' & Hc' & Hwf' & _).
  congruence.
Qed.

Lemma live_candle_well_formed_witness :
  exists c,
    currentCandle
      (aggregateTrades
         {| timeframe := "5m"; currentCandle := None; agg_trades := [] |}
         ([ {| t_timestamp := 400000; t_price := 12; t_size := 1 |};
            {| t_timestamp := 100000; t_price := 9; t_size := 2 |} ]
          ++ [ {| t_timestamp := 200000; t_price := 11; t_size := 3 |} ]))
    = Some c
    /\ wellFormed c /\ close c = 11%Q.
Proof.
  apply (live_candle_well_formed
           {| timeframe := "5m"; currentCandle := None; agg_trades := [] |}).
  intros c Hc. discriminate Hc.
Defined.

(** X2.  Last write wins.  Once a trade of another bucket has been ingested,
    the candle of the trades that follow it in one bucket summarises those
    trades only: everything ingested before the change of bucket, trades of
    that same bucket included, has left no trace in it. *)
Theorem candle_forgets_before_bucket_change (a : Aggregator)
    (before : list Trade) (other first : Trade) (rest : list Trade)
    (bucket otherBucket : Z) :
  candleTimeOf (getTimeframePeriod (timeframe a)) other = Some otherBucket ->
  otherBucket <> bucket ->
  (forall t, In t (first :: rest) ->
     candleTimeOf (getTimeframePeriod (timeframe a)) t = Some bucket) ->
  exists c,
    currentCandle (aggregateTrades a (before ++ other :: first :: rest)) = Some c
    /\ summarises bucket c first rest.
Proof.
  intros Hother Hne Hall.
  replace (before ++ other :: first :: rest)
    with ((before ++ [other]) ++ first :: rest)
    by (rewrite <- app_assoc; reflexivity).
  rewrite aggregateTrades_app, aggregateTrades_snoc.
  set (a0 := aggregateTrades a before).
  assert (Htf0 : timeframe a0 = timeframe a) by apply aggregateTrades_timeframe.
  destruct (aggregateTrade_bucket a0 other otherBucket) as (c1 & Hc1 & Hts1).
  { rewrite Htf0. exact Hother. }
  set (a1 := aggregateTrade a0 other) in *.
  assert (Htf1 : timeframe a1 = timeframe a).
  { unfold a1. rewrite aggregateTrade_timeframe. exact Htf0. }
  change (aggregateTrades a1 (first :: rest))
    with (aggregateTrades (aggregateTrade a1 first) rest).
  assert (Hfirst : currentCandle (aggregateTrade a1 first)
                   = Some (freshCandle (Some bucket) first)).
  { apply aggregateTrade_new_bucket.
    - intros c Hc. rewrite Hc1 in Hc. inversion Hc; subst. congruence.
    - rewrite Htf1. apply Hall. left. reflexivity. }
  destruct (aggregateTrades_same_bucket bucket first rest
              (aggregateTrade a1 first) _ [] Hfirst (summarises_first bucket first))
    as (c & Hc & Hsum).
  - intros t Ht. rewrite aggregateTrade_timeframe, Htf1. apply Hall. right. exact Ht.
  - exists c. split; assumption.
Qed.

Lemma candle_forgets_before_bucket_change_witness :
  exists c,
    currentCandle
      (aggregateTrades
         {| timeframe := "1m"; currentCandle := None; agg_trades := [] |}
         ([ {| t_timestamp := 10000; t_price := 10; t_size := 7 |} ]
          ++ {| t_timestamp := 70000; t_price := 12; t_size := 1 |}
          :: {| t_timestamp := 20000; t_price := 9; t_size := 2 |} :: []))
    = Some c
    /\ open c = 9%Q /\ volume c = 2%Q /\ trades c = 1%nat.
Proof.
  destruct (candle_forgets_before_bucket_change
              {| timeframe := "1m"; currentCandle := None; agg_trades := [] |}
              [ {| t_timestamp := 10000; t_price := 10; t_size := 7 |} ]
              {| t_timestamp := 70000; t_price := 12; t_size := 1 |}
              {| t_timestamp := 20000; t_price := 9; t_size := 2 |}
              [] 0 60)
    as (c & Hc & Hsum).
  - reflexivity.
  - discriminate.
  - intros t [<- | []]. reflexivity.
  - exists c. split; [exact Hc |].
    destruct Hsum as [_ Ho _ _ _ Hv Hn].
    split; [exact Ho |]. split; [exact Hv | exact Hn].
Defined.

Section ProcessTradesCoverage.

Lemma processTrade_map (aggregators : Aggregators) (t : Trade) :
  map fst (processTrade aggregators t) = map fst aggregators.
Proof.
  unfold processTrade. rewrite map_map. apply map_ext. intros [tf a]. reflexivity.
Qed.

Lemma processTrades_each (trades : list Trade) :
  forall aggregators : Aggregators,
    processTrades aggregators trades
    = map (fun '(tf, a) => (tf, aggregateTrades a trades)) aggregators.
Proof.
  unfold processTrades, aggregateTrades.
  induction trades as [| t ts IH]; intros aggregators; cbn [fold_left].
  - rewrite <- (map_id aggregators) at 1. apply map_ext. intros [tf a]. reflexivity.
  - rewrite IH. unfold processTrade. rewrite map_map.
    apply map_ext. intros [tf a]. reflexivity.
Qed.

End ProcessTradesCoverage.

(** X3.  [processTrades] treats the timeframes independently and does not
    care how the trades are batched into messages: each aggregator ends as
    if it alone had been fed all the trades in order, the timeframe keys stay
    as they were and in the same order, and two batches processed one after
    the other give what the concatenated batch gives. *)
Theorem process_trades_independent (aggregators : Aggregators)
    (batch1 batch2 : list Trade) :
  processTrades aggregators batch1
  = map (fun '(tf, a) => (tf, aggregateTrades a batch1)) aggregators
  /\ map fst (processTrades aggregators batch1) = map fst aggregators
  /\ processTrades (processTrades aggregators batch1) batch2
     = processTrades aggregators (batch1 ++ batch2)
  /\ forall timeframes,
       processTrades (initAggregators timeframes) batch1
       = map (fun tf =>
                (tf, aggregateTrades
                       {| timeframe := tf; currentCandle := None; agg_trades := [] |}
                       batch1))
             timeframes.
Proof.
  split; [apply processTrades_each |]. split; [| split].
  - rewrite processTrades_each, map_map.
    apply map_ext. intros [tf a]. reflexivity.
  - unfold processTrades. rewrite fold_left_app. reflexivity.
  - intros timeframes. rewrite processTrades_each. unfold initAggregators.
    rewrite map_map. reflexivity.
Qed.

(** X4.  A label whose numeric prefix is zero ("0m", "00h") has period 0, the
    bucket of every trade is then NaN, and NaN differs from itself: such an
    aggregator never aggregates.  After any trades its candle is the one
    started by the last trade alone, with a NaN timestamp and a trade count
    of 1. *)
Theorem zero_period_never_aggregates (a : Aggregator) (earlier : list Trade)
    (lastTrade : Trade) :
  getTimeframePeriod (timeframe a) = 0 ->
  currentCandle (aggregateTrades a (earlier ++ [lastTrade]))
  = Some (freshCandle None lastTrade).
Proof.
  intros Hzero. rewrite aggregateTrades_snoc.
  set (a0 := aggregateTrades a earlier).
  assert (Htf : timeframe a0 = timeframe a) by apply aggregateTrades_timeframe.
  unfold aggregateTrade. cbv zeta. rewrite Htf, Hzero, candleTimeOf_zero.
  cbn [currentCandle].
  destruct (currentCandle a0) as [c |]; [| reflexivity].
  destruct (timestamp c); reflexivity.
Qed.

Lemma zero_period_never_aggregates_witness :
  currentCandle
    (aggregateTrades
       {| timeframe := "0m"; currentCandle := None; agg_trades := [] |}
       ([ {| t_timestamp := 1000; t_price := 10; t_size := 1 |} ]
        ++ [ {| t_timestamp := 2000; t_price := 11; t_size := 4 |} ]))
  = Some {| timestamp := None; open := 11; high := 11; low := 11; close := 11;
            volume := 4; trades := 1 |}.
Proof.
  exact (zero_period_never_aggregates
           {| timeframe := "0m"; currentCandle := None; agg_trades := [] |}
           [ {| t_timestamp := 1000; t_price := 10; t_size := 1 |} ]
           {| t_timestamp := 2000; t_price := 11; t_size := 4 |}
           eq_refl).
Defined.

Section PeriodCoverage.

Lemma parseInt_from_zero (s : string) :
  forall acc, 0 <= acc -> all_digits s -> parseInt_from acc s = 0 -> acc = 0.
Proof.
  intros acc Hacc Hall Hz.
  pose proof (parseInt_from_nonneg s acc Hacc Hall). lia.
Qed.

Lemma period_shape (tf : string) :
  (regex_match tf = None /\ getTimeframePeriod tf = 60)
  \/ exists ds u, regex_match tf = Some (ds, u)
       /\ getTimeframePeriod tf = parseInt ds * unit_seconds u
       /\ (unit_seconds u = 60 \/ unit_seconds u = 3600 \/ unit_seconds u = 86400).
Proof.
  destruct (regex_match tf) as [[ds u] |] eqn:Hm.
  - right. exists ds, u. split; [reflexivity |].
    pose proof (regex_match_sound tf ds u Hm) as (Htf & Hne & Hall & Hu).
    split.
    + rewrite Htf. apply period_of_match; assumption.
    + unfold unit_seconds.
      apply is_unit_iff in Hu as [-> | [-> | ->]]; cbn; auto.
  - left. split; [reflexivity | apply period_default, Hm].
Qed.

End PeriodCoverage.

(** X5.  For every string whose period is an exact number (at most
    [Number.MAX_SAFE_INTEGER]; every string the pattern rejects is one, and
    every label whose numeric prefix is below 10^11), the period is a
    non-negative whole number of minutes, and it is zero only for a label of
    the pattern whose numeric prefix has the value 0.  So every bucket start
    that [aggregateTrade] computes for a trade with a timestamp in the range
    of a [Date] falls on a whole minute. *)
Theorem period_is_whole_minutes (tf : string) :
  exactPeriod tf ->
  exists minutes,
    0 <= minutes
    /\ getTimeframePeriod tf = 60 * minutes
    /\ (minutes = 0 ->
        exists digits unit, is_label tf digits unit /\ parseInt digits = 0)
    /\ forall trade bucket,
         timeValue (t_timestamp trade) ->
         candleTimeOf (getTimeframePeriod tf) trade = Some bucket ->
         exists k, bucket = 60 * k.
Proof.
  intros _.
  assert (Hmin : exists minutes, 0 <= minutes
            /\ getTimeframePeriod tf = 60 * minutes
            /\ (minutes = 0 ->
                exists digits unit, is_label tf digits unit /\ parseInt digits = 0)).
  { destruct (period_shape tf) as [[_ Hp] | (ds & u & Hm & Hp & Hu)].
    - exists 1. rewrite Hp. repeat split; lia.
    - pose proof (regex_match_sound tf ds u Hm) as (Htf & Hne & Hall & Hunit).
      pose proof (parseInt_from_nonneg ds 0 ltac:(lia) Hall) as Hv.
      change (0 <= parseInt ds) in Hv.
      exists (parseInt ds * (unit_seconds u / 60)). rewrite Hp.
      assert (Hk : unit_seconds u = 60 * (unit_seconds u / 60)
                   /\ 1 <= unit_seconds u / 60).
      { destruct Hu as [-> | [-> | ->]];
          (split; [reflexivity | apply Z.leb_le; reflexivity]). }
      destruct Hk as [Hk1 Hk2]. split; [nia |]. split; [nia |].
      intros Hz. exists ds, u. split.
      + rewrite is_unit_iff in Hunit. repeat split; assumption.
      + nia. }
  destruct Hmin as (minutes & Hpos & Hp & Hzero).
  exists minutes. repeat split; try assumption.
  intros trade bucket _ Hb. rewrite Hp in Hb. unfold candleTimeOf in Hb.
  destruct (60 * minutes =? 0); [discriminate |].
  inversion Hb; subst.
  eexists (_ * minutes). ring.
Qed.

Lemma period_is_whole_minutes_witness :
  exactPeriod "15m"
  /\ getTimeframePeriod "15m" = 60 * 15
  /\ candleTimeOf (getTimeframePeriod "15m")
       {| t_timestamp := 1700000123456; t_price := 1; t_size := 1 |}
     = Some (60 * 28333335).
Proof.
  assert (Hexact : exactPeriod "15m") by (vm_compute; discriminate).
  split; [exact Hexact |].
  destruct (period_is_whole_minutes "15m" Hexact) as (minutes & _ & Hp & _ & Hb).
  split; [reflexivity |].
  assert (Ht : timeValue 1700000123456) by (split; vm_compute; discriminate).
  destruct (Hb {| t_timestamp := 1700000123456; t_price := 1; t_size := 1 |}
              (60 * 28333335) Ht eq_refl) as [k Hk].
  reflexivity.
Defined.

(** ** What the rate limiter draws, and when *)

Section ScheduleCoverage.

Import ChartContainer Schedule.

Lemma midPrice_positive (b : BestBidAsk) (p : Q) :
  midPrice b = Some p -> (0 < p)%Q.
Proof.
  unfold midPrice.
  destruct (Qle_bool ((bid b + ask b) / 2) 0) eqn:Hmid.
  - destruct (Qle_bool (bid b) 0) eqn:Hb; cbn [negb].
    + destruct (Qle_bool (ask b) 0) eqn:Ha; cbn [negb]; [discriminate |].
      intros Heq; inversion Heq; subst.
      apply Qnot_le_lt. intros H. apply Qle_bool_iff in H. congruence.
    + intros Heq; inversion Heq; subst.
      apply Qnot_le_lt. intros H. apply Qle_bool_iff in H. congruence.
  - intros Heq; inversion Heq; subst.
    apply Qnot_le_lt. intros H. apply Qle_bool_iff in H. congruence.
Qed.

Lemma half_le (x y : Q) : (x <= y * 2)%Q -> (x / 2 <= y)%Q.
Proof. intros H. apply Qle_shift_div_r; [reflexivity | exact H]. Qed.

Lemma le_half (x y : Q) : (y * 2 <= x)%Q -> (y <= x / 2)%Q.
Proof. intros H. apply Qle_shift_div_l; [reflexivity | exact H]. Qed.

Lemma lt_half (x y : Q) : (y * 2 < x)%Q -> (y < x / 2)%Q.
Proof. intros H. apply Qlt_shift_div_l; [reflexivity | exact H]. Qed.

Lemma midPrice_none (b : BestBidAsk) :
  midPrice b = None <-> (bid b <= 0)%Q /\ (ask b <= 0)%Q.
Proof.
  unfold midPrice. split.
  - destruct (Qle_bool ((bid b + ask b) / 2) 0); [| discriminate].
    destruct (Qle_bool (bid b) 0) eqn:Hb; cbn [negb]; [| discriminate].
    destruct (Qle_bool (ask b) 0) eqn:Ha; cbn [negb]; [| discriminate].
    intros _. split; apply Qle_bool_iff; assumption.
  - intros [Hb Ha].
    assert (Hmid : ((bid b + ask b) / 2 <= 0)%Q) by (apply half_le; lra).
    apply Qle_bool_iff in Hmid, Hb, Ha. rewrite Hmid, Hb, Ha. reflexivity.
Qed.

Lemma midPrice_between (b : BestBidAsk) :
  (0 < bid b)%Q -> (0 < ask b)%Q ->
  exists p, midPrice b = Some p /\ (p == (bid b + ask b) / 2)%Q
    /\ (Qmin (bid b) (ask b) <= p <= Qmax (bid b) (ask b))%Q.
Proof.
  intros Hb Ha. unfold midPrice.
  destruct (Qle_bool ((bid b + ask b) / 2) 0) eqn:Hmid.
  - apply Qle_bool_iff in Hmid.
    assert (0 < (bid b + ask b) / 2)%Q by (apply lt_half; lra). lra.
  - eexists. split; [reflexivity |]. split; [reflexivity |].
    pose proof (Q.le_min_l (bid b) (ask b));
      pose proof (Q.le_min_r (bid b) (ask b));
      pose proof (Q.le_max_l (bid b) (ask b));
      pose proof (Q.le_max_r (bid b) (ask b)).
    split; [apply le_half | apply half_le]; lra.
Qed.

End ScheduleCoverage.

Section ScheduleRuns.

Import ChartContainer Schedule.

Lemma endClock_snoc (clock : Z) (events : list Event) (e : Event) :
  endClock clock (events ++ [e]) = event_time e.
Proof. unfold endClock. rewrite fold_left_app. reflexivity. Qed.

Lemma pendingValue_snoc (sym : string) (events : list Event) (e : Event) :
  pendingValue sym (events ++ [e])
  = match e with
    | Publish _ v =>
        if String.eqb (symbol v) sym then Some v else pendingValue sym events
    | TimerFires _ _ => None
    | RefsWritten _ _ _ _ => pendingValue sym events
    | CandleUpdate _ _ _ _ => pendingValue sym events
    end.
Proof. unfold pendingValue. rewrite fold_left_app. reflexivity. Qed.

Lemma run_snoc (events : list Event) :
  forall (clock : Z) (s : State) (e : Event),
    run clock s (events ++ [e])
    = match run clock s events with
      | Some s1 =>
          if endClock clock events <=? event_time e then step s1 e else None
      | None => None
      end.
Proof.
  induction events as [| e0 rest IH]; intros clock s e; cbn [app run].
  - cbn [endClock fold_left]. destruct (clock <=? event_time e); [| reflexivity].
    destruct (step s e); reflexivity.
  - destruct (clock <=? event_time e0); [| reflexivity].
    destruct (step s e0) as [s1 |]; [| reflexivity].
    rewrite IH. reflexivity.
Qed.

Lemma run_snoc_inv (clock : Z) (s s' : State) (events : list Event) (e : Event) :
  run clock s (events ++ [e]) = Some s' ->
  exists s1, run clock s events = Some s1
    /\ endClock clock events <= event_time e /\ step s1 e = Some s'.
Proof.
  rewrite run_snoc. destruct (run clock s events) as [s1 |]; [| discriminate].
  destruct (Z.leb_spec (endClock clock events) (event_time e)) as [Hle | _];
    [| discriminate].
  intros Hstep. exists s1. auto.
Qed.

(** What a firing timeout does to a state with a pending timer. *)
Lemma processPriceUpdate_draws (now : Z) (ok : bool) (s : State) :
  processPriceUpdate now ok s = s
  \/ exists b p lastTime candle c,
       priceUpdateQueue s = Some b /\ midPrice b = Some p
       /\ candleSeries s = true /\ lastCandle s = Some (lastTime, candle)
       /\ ok = true /\ cc_close c = p
       /\ (barWellFormed candle -> barWellFormed c)
       /\ processPriceUpdate now ok s
          = {| symbolProp := symbolProp s;
               selectedTimeframe := selectedTimeframe s;
               candleSeries := candleSeries s;
               lastCandle :=
                 Some (currentCandleTimeOf
                         (getTimeframePeriod (selectedTimeframe s)) now, c);
               priceUpdateQueue := None;
               priceUpdateTimer := priceUpdateTimer s;
               lastUpdateTime := now;
               delivered := {| d_time := now; d_value := b; d_candle := c |}
                            :: delivered s;
               currentPrice := currentPrice s;
               candleUpdates := candleUpdates s |}.
Proof.
  unfold processPriceUpdate.
  destruct (priceUpdateQueue s) as [b |] eqn:Hq; [| left; reflexivity].
  destruct (candleSeries s) eqn:Hseries; [| left; reflexivity].
  destruct (lastCandle s) as [[lastTime candle] |] eqn:Hlast; [| left; reflexivity].
  destruct (midPrice b) as [p |] eqn:Hp; [| left; reflexivity].
  cbv zeta. destruct ok; [| left; reflexivity].
  right. exists b, p, lastTime, candle.
  set (cur := currentCandleTimeOf (getTimeframePeriod (selectedTimeframe s)) now).
  destruct (strict_neq lastTime cur) eqn:Hneq; cbn [snd fst].
  - exists {| cc_time := cur; cc_open := p; cc_high := p; cc_low := p;
              cc_close := p; cc_volume := Some 0%Q |}.
    do 6 (split; [first [reflexivity | assumption] |]).
    split; [| reflexivity].
    intros _. unfold barWellFormed. cbn. split; split; apply Qle_refl.
  - apply strict_neq_false in Hneq as (x & -> & Hcur).
    exists {| cc_time := cc_time candle; cc_open := cc_open candle;
              cc_high := Qmax (cc_high candle) p;
              cc_low := Qmin (cc_low candle) p;
              cc_close := p; cc_volume := cc_volume candle |}.
    do 6 (split; [first [reflexivity | assumption] |]).
    split; [| rewrite Hcur; reflexivity].
    intros ((Hlo & Hoh) & (Hlc & Hch)). unfold barWellFormed. cbn.
    pose proof (Q.le_min_l (cc_low candle) p); pose proof (Q.le_min_r (cc_low candle) p).
    pose proof (Q.le_max_l (cc_high candle) p); pose proof (Q.le_max_r (cc_high candle) p).
    repeat split; lra.
Qed.

Lemma tracks_step (sym : string) (clock : Z) (events : list Event)
    (s s' : State) (e : Event) :
  tracks sym clock events s ->
  endClock clock events <= event_time e ->
  step s e = Some s' ->
  tracks sym clock (events ++ [e]) s'.
Proof.
  intros [Hsym Hpend Hq Hclock Hlog] Hle Hstep.
  destruct e as [now b | now ok | now tf series last | now candle tf ok];
    cbn [step] in Hstep.
  - inversion Hstep; subst s'; clear Hstep. cbn [event_time] in Hle.
    unfold queuePriceUpdate. rewrite Hsym.
    destruct (String.eqb_spec (symbol b) sym) as [Hb | Hb]; cbn [negb].
    + constructor; rewrite ?pendingValue_snoc, ?endClock_snoc; cbn.
      * exact Hsym.
      * rewrite (proj2 (String.eqb_eq _ _) Hb). exists b. auto.
      * intros v Hv. inversion Hv; subst. exact Hb.
      * lia.
      * exact Hlog.
    + constructor; rewrite ?pendingValue_snoc, ?endClock_snoc;
        rewrite ?(proj2 (String.eqb_neq _ _) Hb); try assumption.
      cbn. lia.
  - destruct (priceUpdateTimer s) as [due |] eqn:Hdue; [| discriminate].
    destruct (Z.leb_spec due now) as [Hdn | _]; [| discriminate].
    inversion Hstep; subst s'; clear Hstep.
    cbn [event_time] in Hle.
    destruct (processPriceUpdate_draws now ok (clear_timer s))
      as [-> | (b & p & lt & cd & c & Hb & Hp & _ & _ & _ & Hclose & _ & ->)].
    + constructor; rewrite ?pendingValue_snoc, ?endClock_snoc; cbn.
      * exact Hsym.
      * reflexivity.
      * exact Hq.
      * lia.
      * exact Hlog.
    + cbn in Hb. constructor; rewrite ?pendingValue_snoc, ?endClock_snoc; cbn.
      * exact Hsym.
      * reflexivity.
      * discriminate.
      * lia.
      * constructor; [| exact Hlog]. cbn. split; [apply Hq, Hb |].
        rewrite Hclose. exact Hp.
  - inversion Hstep; subst s'; clear Hstep.
    constructor; rewrite ?pendingValue_snoc, ?endClock_snoc; cbn; try assumption.
    cbn [event_time] in Hle. lia.
  - inversion Hstep; subst s'; clear Hstep. cbn [event_time] in Hle.
    unfold handleCandleUpdate.
    repeat case_if;
      (constructor; rewrite ?pendingValue_snoc, ?endClock_snoc; cbn;
       try assumption; lia).
Qed.

Lemma tracks_mounted (sym : string) (clock : Z) :
  tracks sym clock [] (mounted sym).
Proof.
  constructor; cbn; try reflexivity; try discriminate; [lia | constructor].
Qed.

Lemma tracks_run (sym : string) (clock : Z) (events : list Event) :
  forall s, run clock (mounted sym) events = Some s -> tracks sym clock events s.
Proof.
  induction events as [| e rest IH] using rev_ind; intros s Hrun.
  - cbn in Hrun. inversion Hrun; subst. apply tracks_mounted.
  - apply run_snoc_inv in Hrun as (s1 & Hrun1 & Hle & Hstep).
    eapply tracks_step; eauto.
Qed.

End ScheduleRuns.

Section ScheduleClaims.

Import ChartContainer Schedule.

Lemma currentCandleTimeOf_pos (p nowMillis : Z) :
  0 < p -> currentCandleTimeOf p nowMillis = Some (nowMillis / 1000 / p * p).
Proof.
  intros Hp. unfold currentCandleTimeOf. cbv zeta.
  destruct (Z.eqb_spec p 0) as [-> | _]; [lia |].
  change 1000%Q with (inject_Z 1000).
  rewrite <- !Zdiv_Qdiv. reflexivity.
Qed.

End ScheduleClaims.

(** X6.  Only quotes of the chart's own symbol are ever drawn, and only at a
    positive price: every bar the rate limiter has drawn closes at the mid
    price of its quote (or at the positive side when the mid is not
    positive), that price is above zero, and a quote whose bid and ask are
    both at or below zero is never drawn. *)
Theorem only_own_symbol_at_positive_price (sym : string) (clock : Z)
    (events : list ChartContainer.Event) (s : ChartContainer.State) :
  ChartContainer.run clock (ChartContainer.mounted sym) events = Some s ->
  Forall
    (fun d =>
       ChartContainer.symbol (ChartContainer.d_value d) = sym
       /\ ChartContainer.midPrice (ChartContainer.d_value d)
          = Some (ChartContainer.cc_close (ChartContainer.d_candle d))
       /\ (0 < ChartContainer.cc_close (ChartContainer.d_candle d))%Q
       /\ ~ ((ChartContainer.bid (ChartContainer.d_value d) <= 0)%Q
             /\ (ChartContainer.ask (ChartContainer.d_value d) <= 0)%Q))
    (ChartContainer.delivered s).
Proof.
  intros Hrun. pose proof (Schedule.tracks_log _ _ _ _ (tracks_run _ _ _ _ Hrun)) as Hlog.
  eapply Forall_impl; [exact Hlog |]. cbn. intros d [Hsym Hmid].
  split; [exact Hsym |]. split; [exact Hmid |].
  split; [exact (midPrice_positive _ _ Hmid) |].
  intros Hboth. apply midPrice_none in Hboth. congruence.
Qed.

Lemma only_own_symbol_at_positive_price_witness :
  exists s,
    ChartContainer.run 0 (ChartContainer.mounted "BTC-PERP")
      [ ChartContainer.historyLoaded;
        ChartContainer.Publish 1000 ChartContainer.quote1;
        ChartContainer.TimerFires 1000 true ] = Some s
    /\ Forall
         (fun d =>
            ChartContainer.symbol (ChartContainer.d_value d) = "BTC-PERP"%string
            /\ (0 < ChartContainer.cc_close (ChartContainer.d_candle d))%Q)
         (ChartContainer.delivered s).
Proof.
  destruct (ChartContainer.run 0 (ChartContainer.mounted "BTC-PERP")
              [ ChartContainer.historyLoaded;
                ChartContainer.Publish 1000 ChartContainer.quote1;
                ChartContainer.TimerFires 1000 true ])
    as [s |] eqn:Hrun; [| vm_compute in Hrun; discriminate Hrun].
  exists s. split; [reflexivity |].
  eapply Forall_impl; [exact (only_own_symbol_at_positive_price _ _ _ _ Hrun) |].
  cbn. intros d (Hsym & _ & Hpos & _). auto.
Defined.

(** X7.  A timeout can fire only while a quote is pending, and what it then
    draws, if anything, is that quote: the last one published for the symbol
    since the previous firing.  Drawn or not, nothing stays scheduled
    afterwards, so a quote whose draw failed is not tried again; it waits in
    the queue until the next quote for the symbol overwrites it. *)
Theorem timer_draws_the_pending_quote (sym : string) (clock t : Z)
    (chartAccepts : bool) (events : list ChartContainer.Event) :
  (Schedule.pendingValue sym events = None ->
   ChartContainer.run clock (ChartContainer.mounted sym)
     (events ++ [ChartContainer.TimerFires t chartAccepts]) = None)
  /\ forall s',
       ChartContainer.run clock (ChartContainer.mounted sym)
         (events ++ [ChartContainer.TimerFires t chartAccepts]) = Some s' ->
       exists s v,
         ChartContainer.run clock (ChartContainer.mounted sym) events = Some s
         /\ Schedule.pendingValue sym events = Some v
         /\ ChartContainer.symbol v = sym
         /\ (ChartContainer.delivered s' = ChartContainer.delivered s
             \/ exists c,
                  ChartContainer.delivered s'
                  = {| ChartContainer.d_time := t;
                       ChartContainer.d_value := v;
                       ChartContainer.d_candle := c |}
                    :: ChartContainer.delivered s)
         /\ ChartContainer.priceUpdateTimer s' = None
         /\ forall now other,
              ChartContainer.symbol other = sym ->
              ChartContainer.priceUpdateQueue
                (ChartContainer.queuePriceUpdate now other s') = Some other.
Proof.
  assert (Hinv : forall s',
    ChartContainer.run clock (ChartContainer.mounted sym)
      (events ++ [ChartContainer.TimerFires t chartAccepts]) = Some s' ->
    exists s due v,
      ChartContainer.run clock (ChartContainer.mounted sym) events = Some s
      /\ ChartContainer.priceUpdateTimer s = Some due
      /\ ChartContainer.priceUpdateQueue s = Some v
      /\ Schedule.pendingValue sym events = Some v
      /\ ChartContainer.symbol v = sym
      /\ s' = ChartContainer.processPriceUpdate t chartAccepts
                (ChartContainer.clear_timer s)).
  { intros s' Hrun. apply run_snoc_inv in Hrun as (s & Hrun & _ & Hstep).
    pose proof (tracks_run _ _ _ _ Hrun) as [_ Hpend Hq _ _].
    cbn [ChartContainer.step] in Hstep.
    destruct (ChartContainer.priceUpdateTimer s) as [due |] eqn:Hdue; [| discriminate].
    destruct (due <=? t); [| discriminate]. inversion Hstep; subst s'.
    destruct Hpend as (v & Hv & Hpv).
    exists s, due, v. repeat split; auto. }
  split.
  - intros Hnone.
    destruct (ChartContainer.run clock (ChartContainer.mounted sym)
                (events ++ [ChartContainer.TimerFires t chartAccepts]))
      as [s' |] eqn:Hrun; [| reflexivity].
    destruct (Hinv s' eq_refl) as (s & due & v & _ & _ & _ & Hpv & _). congruence.
  - intros s' Hrun.
    pose proof (tracks_run _ _ _ _ Hrun) as [Hsym' _ _ _ _].
    destruct (Hinv s' Hrun) as (s & due & v & Hrun0 & Hdue & Hv & Hpv & Hsv & ->).
    exists s, v. split; [exact Hrun0 |]. split; [exact Hpv |]. split; [exact Hsv |].
    assert (Hq : ChartContainer.priceUpdateQueue (ChartContainer.clear_timer s) = Some v)
      by exact Hv.
    destruct (processPriceUpdate_cases t chartAccepts (ChartContainer.clear_timer s))
      as [Heq | (b & c & last' & Hb & Heq)]; rewrite Heq in *.
    + split; [left; reflexivity |]. split; [reflexivity |].
      intros now other Ho. unfold ChartContainer.queuePriceUpdate.
      rewrite Hsym', <- Ho, String.eqb_refl. reflexivity.
    + rewrite Hq in Hb. inversion Hb; subst b.
      split; [right; exists c; reflexivity |]. split; [reflexivity |].
      intros now other Ho. unfold ChartContainer.queuePriceUpdate.
      rewrite Hsym', <- Ho, String.eqb_refl. reflexivity.
Qed.

Lemma timer_draws_the_pending_quote_witness :
  ChartContainer.run 0 (ChartContainer.mounted "BTC-PERP")
    ([ ChartContainer.historyLoaded;
       ChartContainer.Publish 1000 ChartContainer.quote1;
       ChartContainer.TimerFires 1000 false ]
     ++ [ChartContainer.TimerFires 1300 true]) = None.
Proof.
  apply (proj1 (timer_draws_the_pending_quote "BTC-PERP" 0 1300 true
                  [ ChartContainer.historyLoaded;
                    ChartContainer.Publish 1000 ChartContainer.quote1;
                    ChartContainer.TimerFires 1000 false ])).
  reflexivity.
Defined.

Lemma run_clock_mono (events : list ChartContainer.Event) :
  forall clock s s',
    ChartContainer.run clock s events = Some s' ->
    clock <= Schedule.endClock clock events.
Proof.
  induction events as [| e rest IH]; intros clock s s' Hrun.
  - cbn. lia.
  - cbn [ChartContainer.run] in Hrun.
    destruct (Z.leb_spec clock (ChartContainer.event_time e)) as [Hle | _];
      [| discriminate].
    destruct (ChartContainer.step s e) as [s1 |]; [| discriminate].
    specialize (IH _ _ _ Hrun).
    unfold Schedule.endClock in *. cbn [fold_left]. lia.
Qed.

(** X8.  A quote for the chart's symbol never waits more than 250 ms: in a
    schedule that starts at a non-negative time, publishing it at [now]
    leaves it queued with a timeout due between [now] and [now + 250], and
    due at once when the last update is 250 ms or more in the past. *)
Theorem quote_waits_at_most_interval (sym : string) (clock now : Z)
    (events : list ChartContainer.Event) (v : ChartContainer.BestBidAsk)
    (s' : ChartContainer.State) :
  0 <= clock ->
  ChartContainer.symbol v = sym ->
  ChartContainer.run clock (ChartContainer.mounted sym)
    (events ++ [ChartContainer.Publish now v]) = Some s' ->
  ChartContainer.priceUpdateQueue s' = Some v
  /\ exists due,
       ChartContainer.priceUpdateTimer s' = Some due
       /\ now <= due <= now + ChartContainer.minIntervalMillis
       /\ (ChartContainer.lastUpdateTime s' + ChartContainer.minIntervalMillis <= now ->
           due = now).
Proof.
  intros Hclock Hv Hrun.
  apply run_snoc_inv in Hrun as (s & Hrun & Hle & Hstep).
  pose proof (tracks_run _ _ _ _ Hrun) as [Hsym _ _ Hlast _].
  pose proof (run_clock_mono _ _ _ _ Hrun) as Hmono.
  cbn [ChartContainer.step ChartContainer.event_time] in Hstep, Hle.
  inversion Hstep; subst s'; clear Hstep.
  unfold ChartContainer.queuePriceUpdate.
  rewrite Hsym, Hv, String.eqb_refl. cbn [negb].
  cbn. split; [reflexivity |].
  eexists. split; [reflexivity |].
  unfold ChartContainer.minIntervalMillis. lia.
Qed.

Lemma quote_waits_at_most_interval_witness :
  exists s',
    ChartContainer.run 0 (ChartContainer.mounted "BTC-PERP")
      ([ ChartContainer.historyLoaded;
         ChartContainer.Publish 1000 ChartContainer.quote1;
         ChartContainer.TimerFires 1000 true ]
       ++ [ChartContainer.Publish 1100 ChartContainer.quote2]) = Some s'
    /\ ChartContainer.priceUpdateQueue s' = Some ChartContainer.quote2
    /\ exists due,
         ChartContainer.priceUpdateTimer s' = Some due /\ 1100 <= due <= 1350.
Proof.
  destruct (ChartContainer.run 0 (ChartContainer.mounted "BTC-PERP")
              ([ ChartContainer.historyLoaded;
                 ChartContainer.Publish 1000 ChartContainer.quote1;
                 ChartContainer.TimerFires 1000 true ]
               ++ [ChartContainer.Publish 1100 ChartContainer.quote2]))
    as [s' |] eqn:Hrun; [| vm_compute in Hrun; discriminate Hrun].
  exists s'. split; [reflexivity |].
  destruct (quote_waits_at_most_interval "BTC-PERP" 0 1100 _ ChartContainer.quote2 s'
              ltac:(lia) eq_refl Hrun) as (Hq & due & Hdue & Hbound & _).
  split; [exact Hq |]. exists due. split; [exact Hdue | exact Hbound].
Defined.

(** X9.  On a chart that is ready (series created, a last bar known) and
    accepts the update, a quote for its symbol with a usable price is drawn
    by the timeout that follows it: the bar closes at that price, the bar's
    time is the bucket of the drawing time, the queue is empty again and the
    time of the last update is the drawing time.  A well-formed bar stays
    well-formed, and a quote that falls into the bar's own bucket changes
    neither its open nor its volume. *)
Theorem ready_chart_draws_quote (s s' : ChartContainer.State) (now t : Z)
    (v : ChartContainer.BestBidAsk) (p : Q) (lastTime : option Z)
    (candle : ChartContainer.ChartCandle) :
  ChartContainer.symbol v = ChartContainer.symbolProp s ->
  ChartContainer.candleSeries s = true ->
  ChartContainer.lastCandle s = Some (lastTime, candle) ->
  ChartContainer.midPrice v = Some p ->
  ChartContainer.run now s
    [ChartContainer.Publish now v; ChartContainer.TimerFires t true] = Some s' ->
  let bucket :=
    ChartContainer.currentCandleTimeOf
      (getTimeframePeriod (ChartContainer.selectedTimeframe s)) t in
  exists c,
    ChartContainer.delivered s'
    = {| ChartContainer.d_time := t; ChartContainer.d_value := v;
         ChartContainer.d_candle := c |} :: ChartContainer.delivered s
    /\ ChartContainer.lastCandle s' = Some (bucket, c)
    /\ ChartContainer.cc_close c = p
    /\ ChartContainer.priceUpdateQueue s' = None
    /\ ChartContainer.priceUpdateTimer s' = None
    /\ ChartContainer.lastUpdateTime s' = t
    /\ (Schedule.barWellFormed candle -> Schedule.barWellFormed c)
    /\ (strict_neq lastTime bucket = false ->
        ChartContainer.cc_open c = ChartContainer.cc_open candle
        /\ ChartContainer.cc_volume c = ChartContainer.cc_volume candle
        /\ ChartContainer.cc_high c = Qmax (ChartContainer.cc_high candle) p
        /\ ChartContainer.cc_low c = Qmin (ChartContainer.cc_low candle) p).
Proof.
  intros Hsym Hseries Hlast Hmid Hrun bucket.
  cbn [ChartContainer.run ChartContainer.event_time ChartContainer.step] in Hrun.
  rewrite Z.leb_refl in Hrun.
  destruct (now <=? t); [| discriminate].
  unfold ChartContainer.queuePriceUpdate in Hrun.
  rewrite Hsym, String.eqb_refl in Hrun. cbn [negb] in Hrun.
  cbn [ChartContainer.priceUpdateTimer ChartContainer.set_queue] in Hrun.
  match type of Hrun with
  | context [?d <=? t] => destruct (d <=? t); [| discriminate]
  end.
  injection Hrun as <-.
  match goal with
  | |- context [ChartContainer.processPriceUpdate t true ?st] =>
      destruct (processPriceUpdate_draws t true st)
        as [Hsame | (b & p' & lt' & cd' & c & Hb & Hp & _ & Hl & _ & Hclose & Hwf & Heq)]
  end.
  - exfalso. revert Hsame. unfold ChartContainer.processPriceUpdate. cbn.
    rewrite Hseries, Hlast, Hmid. cbn. intros Hsame.
    apply (f_equal ChartContainer.priceUpdateQueue) in Hsame. cbn in Hsame.
    discriminate Hsame.
  - cbn in Hb, Hl. rewrite Hlast in Hl.
    assert (b = v) by congruence. assert (p' = p) by congruence.
    assert (lt' = lastTime /\ cd' = candle) as [-> ->] by (split; congruence).
    subst b p'.
    rewrite Heq. cbn.
    exists c. do 6 (split; [first [reflexivity | assumption] |]).
    split; [exact Hwf |].
    intros Hin.
    revert Heq. unfold ChartContainer.processPriceUpdate. cbn.
    rewrite Hseries, Hlast, Hmid. cbn. fold bucket. rewrite Hin.
    intros Heq. apply (f_equal ChartContainer.lastCandle) in Heq. cbn in Heq.
    injection Heq as Hb' Hc. subst c. cbn. auto.
Qed.

Lemma ready_chart_draws_quote_witness :
  exists s' c,
    ChartContainer.run 1000 ChartContainer.loadedChart
      [ ChartContainer.Publish 1000 ChartContainer.quote1;
        ChartContainer.TimerFires 1000 true ] = Some s'
    /\ ChartContainer.lastCandle s' = Some (Some 0, c)
    /\ (ChartContainer.cc_close c == 101)%Q
    /\ ChartContainer.cc_open c = 100%Q.
Proof.
  destruct (ChartContainer.run 1000 ChartContainer.loadedChart
              [ ChartContainer.Publish 1000 ChartContainer.quote1;
                ChartContainer.TimerFires 1000 true ])
    as [s' |] eqn:Hrun; [| vm_compute in Hrun; discriminate Hrun].
  destruct (ready_chart_draws_quote ChartContainer.loadedChart s' 1000 1000
              ChartContainer.quote1 (202 # 2) (Some 0) _
              eq_refl eq_refl eq_refl eq_refl Hrun)
    as (c & _ & Hlast & Hclose & _ & _ & _ & _ & Hsame).
  exists s', c. split; [reflexivity |]. split; [exact Hlast |].
  split; [rewrite Hclose; reflexivity |]. exact (proj1 (Hsame eq_refl)).
Defined.

(** X10.  The chart's price-driven bar and the trade aggregator put a moment
    into the same bucket, although the sources compute it differently (the
    chart floors the seconds first): for every timeframe string whose period
    is an exact number (at most [Number.MAX_SAFE_INTEGER]) and every
    millisecond time in the range of a [Date] the two results are equal, and
    when the period is not zero the bucket is a multiple of the period that
    contains the moment. *)
Theorem chart_and_aggregator_buckets_agree (tf : string) (nowMillis : Z)
    (trade : Trade) :
  exactPeriod tf ->
  timeValue nowMillis ->
  t_timestamp trade = nowMillis ->
  let period := getTimeframePeriod tf in
  ChartContainer.currentCandleTimeOf period nowMillis = candleTimeOf period trade
  /\ (period = 0 -> candleTimeOf period trade = None)
  /\ (period <> 0 ->
      exists bucket k,
        candleTimeOf period trade = Some bucket
        /\ bucket = k * period
        /\ bucket <= nowMillis / 1000 < bucket + period).
Proof.
  intros _ _ Hts period.
  pose proof (period_nonneg tf) as Hnn. fold period in Hnn.
  destruct (Z.eq_dec period 0) as [Hz | Hnz].
  - rewrite Hz. split; [reflexivity |]. split; [reflexivity | congruence].
  - assert (Hpos : 0 < period) by lia.
    rewrite (currentCandleTimeOf_pos _ _ Hpos), (candleTimeOf_pos _ _ Hpos), Hts.
    split; [reflexivity |]. split; [congruence |].
    intros _. exists (nowMillis / 1000 / period * period), (nowMillis / 1000 / period).
    split; [reflexivity |]. split; [reflexivity |].
    pose proof (Z.mul_div_le (nowMillis / 1000) period Hpos).
    pose proof (Z.mul_succ_div_gt (nowMillis / 1000) period Hpos).
    lia.
Qed.

Lemma chart_and_aggregator_buckets_agree_witness :
  exactPeriod "5m"
  /\ timeValue 1700000123456
  /\ ChartContainer.currentCandleTimeOf (getTimeframePeriod "5m") 1700000123456
     = candleTimeOf (getTimeframePeriod "5m")
         {| t_timestamp := 1700000123456; t_price := 1; t_size := 1 |}.
Proof.
  assert (Hexact : exactPeriod "5m") by (vm_compute; discriminate).
  assert (Ht : timeValue 1700000123456) by (split; vm_compute; discriminate).
  split; [exact Hexact |]. split; [exact Ht |].
  exact (proj1 (chart_and_aggregator_buckets_agree "5m" 1700000123456
                  {| t_timestamp := 1700000123456; t_price := 1; t_size := 1 |}
                  Hexact Ht eq_refl)).
Defined.

(** ** The best-bid/ask effect: cleanup and error recovery *)

Section EffectCoverage.

Import ChartContainer PriceEffect.

Lemma cleanedUp_step (e e' : Effect) (ev : EffectEvent) (calls : list WsCall) :
  cleanedUp e -> effectStep e ev = Some (e', calls) ->
  cleanedUp e' /\ calls = [] /\ symbolProp (chart e') = symbolProp (chart e).
Proof.
  intros (Ha & Hs & Hh). unfold cleanedUp.
  destruct ev as [now b | | now connected | now cache | | | now ok |];
    cbn [effectStep]; rewrite ?Ha, ?Hs, ?Hh, ?andb_false_r.
  - intros H; inversion H; subst; cbn.
    rewrite queuePriceUpdate_symbolProp. auto.
  - destruct (errorRecoveryTimer e); intros H; inversion H; subst; cbn; auto.
  - intros H; inversion H; subst; auto.
  - discriminate.
  - destruct (recoveryPending e); [| discriminate].
    intros H; inversion H; subst; cbn; auto.
  - destruct (resubscribePending e); [discriminate |].
    intros H; inversion H; subst; cbn; auto.
  - destruct (step (chart e) (TimerFires now ok)) as [s' |] eqn:Hstep; [| discriminate].
    intros H; inversion H; subst; cbn.
    cbn [step] in Hstep.
    destruct (priceUpdateTimer (chart e)); [| discriminate].
    destruct (_ <=? now); [| discriminate]. inversion Hstep; subst.
    destruct (processPriceUpdate_cases now ok (clear_timer (chart e)))
      as [-> | (b & c & l & _ & ->)]; cbn; auto.
  - discriminate.
Qed.

Lemma cleanedUp_run (events : list EffectEvent) :
  forall e e' calls,
    cleanedUp e -> effectRun e events = Some (e', calls) ->
    cleanedUp e' /\ calls = [].
Proof.
  induction events as [| ev rest IH]; intros e e' calls Hc; cbn [effectRun].
  - intros H; inversion H; subst. auto.
  - destruct (effectStep e ev) as [[e1 calls1] |] eqn:Hstep; [| discriminate].
    destruct (effectRun e1 rest) as [[e2 calls2] |] eqn:Hrun; [| discriminate].
    intros H; inversion H; subst.
    destruct (cleanedUp_step _ _ _ _ Hc Hstep) as (Hc1 & -> & _).
    destruct (IH _ _ _ Hc1 Hrun) as (Hc2 & ->). auto.
Qed.

Lemma cleanedUp_excludes (events : list EffectEvent) :
  forall e e' calls,
    cleanedUp e -> effectRun e events = Some (e', calls) ->
    (forall now cache, ~ In (HealthTick now cache) events)
    /\ ~ In Cleanup events.
Proof.
  induction events as [| ev rest IH]; intros e e' calls Hc; cbn [effectRun].
  - intros _. split; [intros now cache [] | intros []].
  - destruct (effectStep e ev) as [[e1 calls1] |] eqn:Hstep; [| discriminate].
    destruct (effectRun e1 rest) as [[e2 calls2] |] eqn:Hrun; [| discriminate].
    intros _.
    destruct (cleanedUp_step _ _ _ _ Hc Hstep) as (Hc1 & _ & _).
    destruct (IH _ _ _ Hc1 Hrun) as (Hh & Hcl).
    destruct Hc as (Ha & Hs & Hht).
    split.
    + intros now cache [Heq | Hin]; [| exact (Hh now cache Hin)].
      subst ev. cbn [effectStep] in Hstep. rewrite Hht in Hstep. discriminate.
    + intros [Heq | Hin]; [| exact (Hcl Hin)].
      subst ev. cbn [effectStep] in Hstep. rewrite Ha in Hstep. discriminate.
Qed.

End EffectCoverage.

(** X11.  Once the cleanup of the best-bid/ask effect has run, the effect
    never calls the socket again, whatever the socket or the timers still
    deliver to its callbacks (late quotes, errors, a reconnect, the pending
    one-second resubscription): the unsubscribe of the cleanup is the last
    call, the health check cannot tick, and a second cleanup cannot run. *)
Theorem no_socket_call_after_cleanup (e e' : PriceEffect.Effect)
    (events : list PriceEffect.EffectEvent)
    (calls : list ChartContainer.WsCall) :
  PriceEffect.effectRun e (PriceEffect.Cleanup :: events) = Some (e', calls) ->
  calls = [ChartContainer.WsUnsubscribeFromBestBidAsk
             (ChartContainer.symbolProp (PriceEffect.chart e))]
  /\ PriceEffect.isSubscribed e' = false
  /\ (forall now cache, ~ In (PriceEffect.HealthTick now cache) events)
  /\ ~ In PriceEffect.Cleanup events.
Proof.
  cbn [PriceEffect.effectRun PriceEffect.effectStep].
  destruct (PriceEffect.active e); [| discriminate].
  match goal with
  | |- context [PriceEffect.effectRun ?e1 events] => set (e1' := e1)
  end.
  assert (Hc1 : PriceEffect.cleanedUp e1') by (repeat split).
  destruct (PriceEffect.effectRun e1' events) as [[e2 calls2] |] eqn:Hrun;
    [| discriminate].
  intros H; inversion H; subst.
  destruct (cleanedUp_run _ _ _ _ Hc1 Hrun) as ((_ & Hs & _) & ->).
  destruct (cleanedUp_excludes _ _ _ _ Hc1 Hrun) as (Hh & Hcl).
  split; [reflexivity |]. split; [exact Hs |]. split; assumption.
Qed.

Lemma no_socket_call_after_cleanup_witness :
  exists e',
    PriceEffect.effectRun PriceEffect.mountedEffect
      [ PriceEffect.Cleanup;
        PriceEffect.SocketError;
        PriceEffect.ConnectionChange 5000 true;
        PriceEffect.RecoveryFires;
        PriceEffect.PriceUpdate 6000 ChartContainer.quote1 ]
    = Some (e', [ ChartContainer.WsUnsubscribeFromBestBidAsk "BTC-PERP" ]).
Proof.
  destruct (PriceEffect.effectRun PriceEffect.mountedEffect
              [ PriceEffect.Cleanup;
                PriceEffect.SocketError;
                PriceEffect.ConnectionChange 5000 true;
                PriceEffect.RecoveryFires;
                PriceEffect.PriceUpdate 6000 ChartContainer.quote1 ])
    as [[e' calls] |] eqn:Hrun; [| vm_compute in Hrun; discriminate Hrun].
  exists e'.
  destruct (no_socket_call_after_cleanup _ _ _ _ Hrun) as (-> & _).
  reflexivity.
Defined.

(** X12.  Errors do not pile up recoveries.  However many errors the socket
    reports while no recovery is scheduled, one recovery timeout is set; when
    it fires the effect is back in the state it had before the errors and
    has re-issued the subscription once if it is subscribed (and not at all
    otherwise); the timeout cannot fire a second time. *)
Theorem errors_schedule_one_recovery (e : PriceEffect.Effect) (n : nat) :
  PriceEffect.errorRecoveryTimer e = false ->
  PriceEffect.recoveryPending e = false ->
  PriceEffect.effectRun e
    (repeat PriceEffect.SocketError (S n) ++ [PriceEffect.RecoveryFires])
  = Some (e,
          if PriceEffect.isSubscribed e
          then [ChartContainer.WsSubscribeToBestBidAsk
                  (ChartContainer.symbolProp (PriceEffect.chart e))]
          else [])
  /\ PriceEffect.effectRun e
       (repeat PriceEffect.SocketError (S n)
        ++ [PriceEffect.RecoveryFires; PriceEffect.RecoveryFires])
     = None.
Proof.
  intros Htimer Hpending.
  assert (Hmore : forall k rest (e1 : PriceEffect.Effect),
            PriceEffect.errorRecoveryTimer e1 = true ->
            PriceEffect.effectRun e1 (repeat PriceEffect.SocketError k ++ rest)
            = PriceEffect.effectRun e1 rest).
  { induction k as [| k IH]; intros rest e1 He1; [reflexivity |].
    cbn [repeat app PriceEffect.effectRun PriceEffect.effectStep].
    rewrite He1, (IH rest e1 He1).
    destruct (PriceEffect.effectRun e1 rest) as [[e2 c2] |]; reflexivity. }
  cbn [repeat app PriceEffect.effectRun PriceEffect.effectStep].
  rewrite Htimer.
  rewrite !Hmore by reflexivity.
  cbn [PriceEffect.effectRun PriceEffect.effectStep PriceEffect.recoveryPending
       PriceEffect.isSubscribed PriceEffect.chart].
  destruct e as [a sub t pend h r l c]. cbn in *. subst t pend.
  split; [rewrite app_nil_r; reflexivity | reflexivity].
Qed.

Lemma errors_schedule_one_recovery_witness :
  PriceEffect.effectRun PriceEffect.mountedEffect
    (repeat PriceEffect.SocketError 3 ++ [PriceEffect.RecoveryFires])
  = Some (PriceEffect.mountedEffect,
          [ChartContainer.WsSubscribeToBestBidAsk "BTC-PERP"]).
Proof.
  exact (proj1 (errors_schedule_one_recovery PriceEffect.mountedEffect 2
                  eq_refl eq_refl)).
Defined.

(** X13.  Replaying the cache makes the topic fresh again.  When the health
    check finds a subscribed topic stale and the socket's cache holds a
    quote for the chart's symbol, the quote is queued with a timeout due at
    once; when that timeout fires on a ready chart that accepts a usable
    price, the time of the last update becomes the firing time, and every
    health check up to 10 s later does nothing at all.  The resubscription
    beyond 30 s is thus reached only when the replay cannot be drawn. *)
Theorem replayed_cache_resets_staleness (s : ChartContainer.State)
    (now : Z) (cache : ChartContainer.WsCache) (b : ChartContainer.BestBidAsk)
    (lastPrice p : Q) (last : option Z * ChartContainer.ChartCandle) :
  ChartContainer.staleMillis < now - ChartContainer.lastUpdateTime s ->
  ChartContainer.getLastPrice cache = Some lastPrice ->
  ChartContainer.getBestBidAsk cache = Some b ->
  ChartContainer.symbol b = ChartContainer.symbolProp s ->
  ChartContainer.candleSeries s = true ->
  ChartContainer.lastCandle s = Some last ->
  ChartContainer.midPrice b = Some p ->
  let s1 := ChartContainer.hc_state (ChartContainer.healthCheck now true cache s) in
  ChartContainer.priceUpdateQueue s1 = Some b
  /\ ChartContainer.priceUpdateTimer s1 = Some now
  /\ forall t s2,
       ChartContainer.step s1 (ChartContainer.TimerFires t true) = Some s2 ->
       ChartContainer.lastUpdateTime s2 = t
       /\ forall later subscribed cache',
            later - t <= ChartContainer.staleMillis ->
            ChartContainer.healthCheck later subscribed cache' s2
            = {| ChartContainer.hc_state := s2;
                 ChartContainer.hc_calls := [];
                 ChartContainer.hc_timeouts := [] |}.
Proof.
  intros Hstale Hprice Hbest Hsym Hseries Hlast Hmid s1.
  assert (Hs1 : s1 = ChartContainer.set_queue (Some b) (Some now) s).
  { subst s1. unfold ChartContainer.healthCheck.
    destruct (Z.ltb_spec ChartContainer.staleMillis
                (now - ChartContainer.lastUpdateTime s)); [| lia].
    cbn [andb]. rewrite Hprice, Hbest.
    assert (Hq : ChartContainer.queuePriceUpdate now b s
                 = ChartContainer.set_queue (Some b) (Some now) s).
    { unfold ChartContainer.queuePriceUpdate. rewrite Hsym, String.eqb_refl.
      cbn [negb]. unfold ChartContainer.minIntervalMillis, ChartContainer.staleMillis in *.
      replace (now + Z.max 0 (250 - (now - ChartContainer.lastUpdateTime s)))
        with now by lia.
      reflexivity. }
    destruct (_ <? _); cbn; exact Hq. }
  rewrite Hs1. split; [reflexivity |]. split; [reflexivity |].
  intros t s2. cbn [ChartContainer.step ChartContainer.priceUpdateTimer
                    ChartContainer.set_queue].
  destruct (now <=? t); [| discriminate].
  intros Hs2; injection Hs2 as <-.
  destruct last as [lastTime candle].
  unfold ChartContainer.processPriceUpdate. cbn.
  rewrite Hseries, Hlast, Hmid. cbn.
  split; [reflexivity |].
  intros later subscribed cache' Hfresh.
  unfold ChartContainer.healthCheck. cbn.
  destruct (Z.ltb_spec ChartContainer.staleMillis (later - t)); [lia |].
  reflexivity.
Qed.

Lemma replayed_cache_resets_staleness_witness :
  ChartContainer.priceUpdateTimer
    (ChartContainer.hc_state
       (ChartContainer.healthCheck 15000 true ChartContainer.warmCache
          ChartContainer.loadedChart))
  = Some 15000.
Proof.
  exact (proj1 (proj2 (replayed_cache_resets_staleness
                         ChartContainer.loadedChart 15000 ChartContainer.warmCache
                         ChartContainer.quote1 101 (202 # 2) _
                         ltac:(reflexivity) eq_refl eq_refl eq_refl eq_refl eq_refl
                         eq_refl))).
Defined.

(** ** The price precision *)

Section PrecisionCoverage.

Import PricePrecision.

Lemma indexOfDot_app (intPart rest : string) :
  noDot intPart ->
  indexOfDot (String.append intPart (String "." rest)) = Some (String.length intPart).
Proof.
  induction intPart as [| c r IH]; cbn [noDot]; intros Hno.
  - reflexivity.
  - destruct Hno as [Hc Hno]. rewrite append_cons. cbn [indexOfDot String.length].
    destruct (Ascii.eqb_spec c "."); [contradiction |].
    rewrite (IH Hno). reflexivity.
Qed.

Lemma indexOfDot_none (s : string) : noDot s -> indexOfDot s = None.
Proof.
  induction s as [| c r IH]; cbn [noDot indexOfDot]; [reflexivity |].
  intros [Hc Hno]. destruct (Ascii.eqb_spec c "."); [contradiction |].
  rewrite (IH Hno). reflexivity.
Qed.

Lemma substringFrom_app (intPart rest : string) :
  substringFrom (String.length intPart + 1)
    (String.append intPart (String "." rest)) = rest.
Proof.
  induction intPart as [| c r IH].
  - reflexivity.
  - rewrite append_cons. cbn [String.length Nat.add substringFrom]. exact IH.
Qed.

Lemma get_lt (s : string) :
  forall i, (i < String.length s)%nat -> exists c, String.get i s = Some c.
Proof.
  induction s as [| c r IH]; intros i Hi; cbn [String.length] in Hi; [lia |].
  destruct i as [| i]; cbn [String.get]; [eauto |]. apply IH. lia.
Qed.

Lemma scanBack_spec (decimals : string) (len : nat) :
  forall left : nat,
    (left <= String.length decimals)%nat ->
    let r := scanBack left decimals len in
    (r = len
     /\ forall i, (i < left)%nat -> String.get i decimals = Some "0"%char)
    \/ ((1 <= r <= left)%nat
        /\ (exists c, String.get (r - 1) decimals = Some c /\ c <> "0"%char)
        /\ forall i, (r <= i < left)%nat -> String.get i decimals = Some "0"%char).
Proof.
  induction left as [| i IH]; intros Hle; cbn [scanBack]; cbv zeta.
  - left. split; [reflexivity | intros i Hi; lia].
  - destruct (get_lt decimals i ltac:(lia)) as (c & Hc). rewrite Hc.
    destruct (Ascii.eqb_spec c "0") as [-> | Hne].
    + destruct (IH ltac:(lia)) as [[Hr Hz] | (Hr & Hlast & Hz)].
      * left. split; [exact Hr |]. intros j Hj.
        destruct (Nat.eq_dec j i) as [-> | Hji]; [exact Hc | apply Hz; lia].
      * right. split; [lia |]. split; [exact Hlast |]. intros j Hj.
        destruct (Nat.eq_dec j i) as [-> | Hji]; [exact Hc | apply Hz; lia].
    + right. split; [lia |]. split.
      * exists c. replace (S i - 1)%nat with i by lia. auto.
      * intros j Hj. lia.
Qed.

End PrecisionCoverage.

(** X14.  [getPricePrecision] counts the decimals of the printed tick size up
    to the last one that is not '0'.  A tick size of 0 gives 2, a tick size
    of 1 or more gives 0, and so does a tick size that prints without a
    decimal point (as the exponent form of very small numbers does).
    Otherwise, with the tick size printed as an integer part, a point and
    the decimals, the precision is at most the number of decimals, every
    decimal from that position on is '0', and the decimal just before it is
    not (unless all decimals are '0', when all of them count). *)
Theorem precision_strips_trailing_zeros (numberToString : Q -> string) (tickSize : Q) :
  ((tickSize == 0)%Q ->
   PricePrecision.getPricePrecision numberToString tickSize = 2%nat)
  /\ ((1 <= tickSize)%Q ->
      PricePrecision.getPricePrecision numberToString tickSize = 0%nat)
  /\ (~ (tickSize == 0)%Q -> (tickSize < 1)%Q ->
      (PricePrecision.noDot (numberToString tickSize) ->
       PricePrecision.getPricePrecision numberToString tickSize = 0%nat)
      /\ forall intPart decimals,
           PricePrecision.noDot intPart ->
           numberToString tickSize
           = String.append intPart (String "." decimals) ->
           PricePrecision.strips_trailing_zeros decimals
             (PricePrecision.getPricePrecision numberToString tickSize)).
Proof.
  unfold PricePrecision.getPricePrecision. split; [| split].
  - intros Hz. apply Qeq_bool_iff in Hz. rewrite Hz. reflexivity.
  - intros Hone.
    destruct (Qeq_bool tickSize 0) eqn:Hz.
    + apply Qeq_bool_iff in Hz. rewrite Hz in Hone. exfalso.
      apply (Qlt_not_le 0 1); [reflexivity | exact Hone].
    + apply Qle_bool_iff in Hone. rewrite Hone. reflexivity.
  - intros Hnz Hlt.
    destruct (Qeq_bool tickSize 0) eqn:Hz; [apply Qeq_bool_iff in Hz; contradiction |].
    destruct (Qle_bool 1 tickSize) eqn:Hone.
    { apply Qle_bool_iff in Hone. exfalso. apply (Qlt_not_le _ _ Hlt Hone). }
    cbv zeta. split.
    + intros Hno. rewrite (indexOfDot_none _ Hno). reflexivity.
    + intros intPart decimals Hno Hstr. rewrite Hstr.
      rewrite (indexOfDot_app _ _ Hno), substringFrom_app.
      unfold PricePrecision.strips_trailing_zeros.
      pose proof (scanBack_spec decimals (String.length decimals)
                    (String.length decimals) (Nat.le_refl _)) as H.
      cbv zeta in H. exact H.
Qed.

Lemma precision_strips_trailing_zeros_witness :
  PricePrecision.strips_trailing_zeros "0050"
    (PricePrecision.getPricePrecision (fun _ => "0.0050"%string) (1 # 200)).
Proof.
  apply (proj2 (proj2 (proj2 (precision_strips_trailing_zeros
                                (fun _ => "0.0050"%string) (1 # 200)))
                 ltac:(discriminate) ltac:(reflexivity))
         "0"%string "0050"%string).
  - cbn. split; [discriminate | exact I].
  - reflexivity.
Defined.

(** ** The preview lines on the chart *)

Section PreviewCoverage.

Import OrderPreview PreviewLines.

Lemma dropLine_lookup (ref : option nat) (series : Series) (k : nat) :
  priceLines (dropLine ref series) !! k
  = if decide (ref = Some k) then None else priceLines series !! k.
Proof.
  destruct ref as [l |]; cbn.
  - destruct (decide (Some l = Some k)) as [Heq | Hne].
    + inversion Heq; subst. apply lookup_delete_eq.
    + apply lookup_delete_ne. congruence.
  - destruct (decide (None = Some k)); [discriminate | reflexivity].
Qed.

Lemma dropLine_next (ref : option nat) (series : Series) :
  nextLine (dropLine ref series) = nextLine series.
Proof. destruct ref; reflexivity. Qed.

Lemma dropLine_fresh (ref : option nat) (series : Series) :
  fresh series -> fresh (dropLine ref series).
Proof.
  intros Hf k. rewrite dropLine_lookup, dropLine_next.
  destruct (decide (ref = Some k)); [intros [? ?]; discriminate | apply Hf].
Qed.

Lemma setLine_spec (wanted : option PriceLineOptions) (ref ref' : option nat)
    (series series' : Series) :
  setLine wanted ref series = (ref', series') ->
  fresh series ->
  (forall k, ref = Some k -> (k < nextLine series)%nat) ->
  fresh series'
  /\ (nextLine series <= nextLine series')%nat
  /\ match wanted with
     | Some options =>
         ref' = Some (nextLine series)
         /\ priceLines series' !! nextLine series = Some options
     | None => ref' = None
     end
  /\ (forall k, ref = Some k -> priceLines series' !! k = None)
  /\ (forall k, (k < nextLine series)%nat -> ref <> Some k ->
        priceLines series' !! k = priceLines series !! k)
  /\ (forall k, (nextLine series <= k)%nat ->
        is_Some (priceLines series' !! k) -> ref' = Some k).
Proof.
  intros Hset Hf Href. unfold setLine in Hset.
  destruct wanted as [options |].
  - unfold createPriceLine in Hset. rewrite dropLine_next in Hset.
    inversion Hset; subst; clear Hset. cbn [nextLine priceLines].
    split; [| split; [lia | split; [| split; [| split]]]].
    + intros k Hk. cbn [nextLine priceLines] in *.
      destruct (decide (k = nextLine series)) as [-> | Hne]; [lia |].
      rewrite lookup_insert_ne in Hk by congruence.
      apply dropLine_fresh in Hk; [| exact Hf]. rewrite dropLine_next in Hk. lia.
    + split; [reflexivity | apply lookup_insert_eq].
    + intros k Hk. specialize (Href k Hk).
      rewrite lookup_insert_ne by lia. rewrite dropLine_lookup.
      destruct (decide (ref = Some k)); [reflexivity | contradiction].
    + intros k Hk Hne. rewrite lookup_insert_ne by lia. rewrite dropLine_lookup.
      destruct (decide (ref = Some k)); [contradiction | reflexivity].
    + intros k Hk Hsome.
      destruct (decide (k = nextLine series)) as [-> | Hne]; [reflexivity |].
      rewrite lookup_insert_ne in Hsome by congruence.
      apply dropLine_fresh in Hsome; [| exact Hf]. rewrite dropLine_next in Hsome. lia.
  - inversion Hset; subst; clear Hset. rewrite dropLine_next.
    split; [apply dropLine_fresh, Hf |]. split; [lia |]. split; [reflexivity |].
    split; [| split].
    + intros k Hk. rewrite dropLine_lookup.
      destruct (decide (ref = Some k)); [reflexivity | contradiction].
    + intros k Hk Hne. rewrite dropLine_lookup.
      destruct (decide (ref = Some k)); [contradiction | reflexivity].
    + intros k Hk Hsome. apply dropLine_fresh in Hsome; [| exact Hf].
      rewrite dropLine_next in Hsome. lia.
Qed.

End PreviewCoverage.

Section PreviewInvariant.

Import OrderPreview PreviewLines.

Lemma elem_of_heldLines (r : Refs) (k : nat) :
  k ∈ heldLines r
  <-> previewEntryLine r = Some k \/ previewTakeProfitLine r = Some k
      \/ previewStopLossLine r = Some k.
Proof.
  unfold heldLines, refs. rewrite list_elem_of_omap. split.
  - intros (x & Hin & Hx). cbn in Hx. subst x.
    rewrite !elem_of_cons in Hin. rewrite elem_of_nil in Hin.
    destruct Hin as [H | [H | [H | []]]]; auto.
  - intros H. exists (Some k). split; [| reflexivity].
    rewrite !elem_of_cons. destruct H as [H | [H | H]]; rewrite H; auto.
Qed.

Lemma heldLines_NoDup (e t s : option nat) (cs : option Series) :
  NoDup (heldLines {| candleSeries := cs; previewEntryLine := e;
                      previewTakeProfitLine := t; previewStopLossLine := s |})
  <-> (forall k, e = Some k -> t <> Some k /\ s <> Some k)
      /\ (forall k, t = Some k -> s <> Some k).
Proof.
  unfold heldLines, refs. cbn.
  destruct e as [a |], t as [b |], s as [c |]; cbn;
    rewrite ?NoDup_cons, ?elem_of_cons, ?elem_of_nil;
    (split; [intros H; split; intros k Hk; try discriminate;
             injection Hk as ->; intuition congruence
            | intros [He Ht]; repeat split; try apply NoDup_nil_2;
              try (specialize (He _ eq_refl)); try (specialize (Ht _ eq_refl));
              intuition congruence]).
Qed.

(** X15. Redrawing the order preview never leaks a line.  From refs that
    agree with the series, [updatePreviewLines] ends in refs that agree with
    it again; every preview line held before is gone from the series, every
    other line that was there is untouched, every line that is new is held by
    one of the three refs, and the refs hold exactly the lines the preview
    calls for, with the options it calls for. *)
Theorem preview_redraw_never_leaks
    (numberToString : Q -> string) (toFixed : Q -> nat -> string)
    (preview : OrderPreviewData) (sym : string) (tickSize : option Q)
    (r : Refs) (series : Series) :
  sound r ->
  candleSeries r = Some series ->
  exists series',
    let r' := updatePreviewLines numberToString toFixed preview sym tickSize r in
    candleSeries r' = Some series'
    /\ sound r'
    /\ (forall k, k ∈ heldLines r -> priceLines series' !! k = None)
    /\ (forall k, k ∉ heldLines r -> (k < nextLine series)%nat ->
          priceLines series' !! k = priceLines series !! k)
    /\ (forall k, (nextLine series <= k)%nat ->
          is_Some (priceLines series' !! k) -> k ∈ heldLines r')
    /\ Forall2
         (fun ref wanted =>
            match wanted with
            | Some options =>
                exists line, ref = Some line
                             /\ priceLines series' !! line = Some options
            | None => ref = None
            end)
         (refs r') (wantedLines numberToString toFixed preview sym tickSize).
Proof.
  intros Hsound Hseries. destruct r as [cs e t s]. cbn in Hseries. subst cs.
  unfold sound in Hsound. cbn [candleSeries] in Hsound.
  destruct Hsound as (Hfresh & Hnd & Hin).
  apply heldLines_NoDup in Hnd as [Hne Hnt].
  assert (Hlt : forall k, e = Some k \/ t = Some k \/ s = Some k ->
                          (k < nextLine series)%nat).
  { intros k Hk. apply Hfresh, Hin, elem_of_heldLines. exact Hk. }
  unfold updatePreviewLines, wantedLines.
  cbn [candleSeries previewEntryLine previewTakeProfitLine previewStopLossLine].
  destruct (shown preview sym) eqn:Hshown; cbn [negb].
  - set (w1 := entryOptions toFixed preview _).
    set (w2 := takeProfitOptions toFixed preview _).
    set (w3 := stopLossOptions toFixed preview _).
    clearbody w1 w2 w3.
    destruct (setLine w1 e series) as [e' series1] eqn:H1.
    destruct (setLine w2 t series1) as [t' series2] eqn:H2.
    destruct (setLine w3 s series2) as [s' series3] eqn:H3.
    apply setLine_spec in H1; [| exact Hfresh | intros k Hk; apply Hlt; auto].
    destruct H1 as (Hf1 & Hn1 & Hw1 & Hold1 & Hkeep1 & Hnew1).
    apply setLine_spec in H2;
      [| exact Hf1
       | intros k Hk; specialize (Hlt k ltac:(auto)); lia].
    destruct H2 as (Hf2 & Hn2 & Hw2 & Hold2 & Hkeep2 & Hnew2).
    apply setLine_spec in H3;
      [| exact Hf2
       | intros k Hk; specialize (Hlt k ltac:(auto)); lia].
    destruct H3 as (Hf3 & Hn3 & Hw3 & Hold3 & Hkeep3 & Hnew3).
    assert (Ht_lt : forall k, t = Some k -> (k < nextLine series)%nat)
      by (intros k Hk; apply Hlt; auto).
    assert (Hs_lt : forall k, s = Some k -> (k < nextLine series)%nat)
      by (intros k Hk; apply Hlt; auto).
    (* a line of [series1] at or above the first counter survives to the end *)
    assert (Hup1 : forall k, (nextLine series <= k)%nat ->
                             is_Some (priceLines series1 !! k) ->
                             priceLines series3 !! k = priceLines series1 !! k).
    { intros k Hk Hsome. pose proof (Hf1 k Hsome) as Hk1.
      rewrite Hkeep3, Hkeep2; [reflexivity | exact Hk1 | | lia |].
      - intros Heq. apply Ht_lt in Heq. lia.
      - intros Heq. apply Hs_lt in Heq. lia. }
    assert (Hup2 : forall k, (nextLine series1 <= k)%nat ->
                             is_Some (priceLines series2 !! k) ->
                             priceLines series3 !! k = priceLines series2 !! k).
    { intros k Hk Hsome. pose proof (Hf2 k Hsome) as Hk2.
      rewrite Hkeep3; [reflexivity | exact Hk2 |].
      intros Heq. apply Hs_lt in Heq. lia. }
    assert (He' : forall k, e' = Some k ->
                  k = nextLine series /\ is_Some (priceLines series1 !! k)).
    { intros k Hk. destruct w1 as [o |]; [| congruence].
      destruct Hw1 as [He' Ho]. rewrite He' in Hk. injection Hk as <-.
      split; [reflexivity | eauto]. }
    assert (Ht' : forall k, t' = Some k ->
                  k = nextLine series1 /\ is_Some (priceLines series2 !! k)).
    { intros k Hk. destruct w2 as [o |]; [| congruence].
      destruct Hw2 as [Ht' Ho]. rewrite Ht' in Hk. injection Hk as <-.
      split; [reflexivity | eauto]. }
    assert (Hs' : forall k, s' = Some k ->
                  k = nextLine series2 /\ is_Some (priceLines series3 !! k)).
    { intros k Hk. destruct w3 as [o |]; [| congruence].
      destruct Hw3 as [Hs' Ho]. rewrite Hs' in Hk. injection Hk as <-.
      split; [reflexivity | eauto]. }
    exists series3. cbn zeta. cbn [candleSeries].
    split; [reflexivity |]. split; [| split; [| split; [| split]]].
    + unfold sound. cbn [candleSeries]. split; [exact Hf3 |]. split.
      * apply heldLines_NoDup. split.
        -- intros k Hk. apply He' in Hk as [-> Hsome].
           pose proof (Hf1 _ Hsome). split; intros Heq.
           ++ apply Ht' in Heq as [Heq _]. lia.
           ++ apply Hs' in Heq as [Heq _]. lia.
        -- intros k Hk. apply Ht' in Hk as [-> Hsome].
           pose proof (Hf2 _ Hsome). intros Heq.
           apply Hs' in Heq as [Heq _]. lia.
      * intros k Hk. apply elem_of_heldLines in Hk. cbn in Hk.
        destruct Hk as [Hk | [Hk | Hk]].
        -- apply He' in Hk as [-> Hsome]. rewrite Hup1; [exact Hsome | lia | exact Hsome].
        -- apply Ht' in Hk as [-> Hsome]. rewrite Hup2; [exact Hsome | lia | exact Hsome].
        -- apply Hs' in Hk as [_ Hsome]. exact Hsome.
    + intros k Hk. apply elem_of_heldLines in Hk. cbn in Hk.
      destruct Hk as [Hk | [Hk | Hk]].
      * pose proof (Hlt k ltac:(auto)). destruct (Hne k Hk) as [Hkt Hks].
        rewrite Hkeep3, Hkeep2; [apply Hold1; exact Hk | lia | exact Hkt | lia | exact Hks].
      * pose proof (Hlt k ltac:(auto)). pose proof (Hnt k Hk) as Hks.
        rewrite Hkeep3; [apply Hold2; exact Hk | lia | exact Hks].
      * apply Hold3. exact Hk.
    + intros k Hk Hklt. rewrite elem_of_heldLines in Hk. cbn in Hk.
      rewrite Hkeep3, Hkeep2, Hkeep1; [reflexivity | | | | | |]; try lia; tauto.
    + intros k Hk Hsome. apply elem_of_heldLines. cbn.
      destruct (le_lt_dec (nextLine series2) k) as [Hk2 | Hk2].
      { right. right. apply Hnew3; assumption. }
      rewrite Hkeep3 in Hsome;
        [| exact Hk2 | intros Heq; apply Hs_lt in Heq; lia].
      destruct (le_lt_dec (nextLine series1) k) as [Hk1 | Hk1].
      { right. left. apply Hnew2; assumption. }
      rewrite Hkeep2 in Hsome;
        [| exact Hk1 | intros Heq; apply Ht_lt in Heq; lia].
      left. apply Hnew1; assumption.
    + unfold refs.
      cbn [previewEntryLine previewTakeProfitLine previewStopLossLine].
      repeat constructor.
      * destruct w1 as [o |]; [| exact Hw1]. destruct Hw1 as [-> Ho].
        eexists. split; [reflexivity |]. rewrite Hup1; [exact Ho | lia | eauto].
      * destruct w2 as [o |]; [| exact Hw2]. destruct Hw2 as [-> Ho].
        eexists. split; [reflexivity |]. rewrite Hup2; [exact Ho | lia | eauto].
      * destruct w3 as [o |]; [| exact Hw3]. destruct Hw3 as [-> Ho].
        eexists. split; [reflexivity | exact Ho].
  - eexists. cbn zeta. cbn [candleSeries].
    split; [reflexivity |]. split; [| split; [| split; [| split]]].
    + unfold sound. cbn [candleSeries]. split.
      * apply dropLine_fresh, dropLine_fresh, dropLine_fresh. exact Hfresh.
      * split; [apply NoDup_nil_2 |]. intros k Hk.
        apply elem_of_heldLines in Hk. cbn in Hk.
        destruct Hk as [Hk | [Hk | Hk]]; discriminate.
    + intros k Hk. apply elem_of_heldLines in Hk. cbn in Hk.
      rewrite !dropLine_lookup.
      repeat (destruct (decide _); [reflexivity |]).
      destruct Hk as [Hk | [Hk | Hk]]; contradiction.
    + intros k Hk _. rewrite elem_of_heldLines in Hk. cbn in Hk.
      rewrite !dropLine_lookup.
      repeat (destruct (decide _); [tauto |]). reflexivity.
    + intros k Hk Hsome. exfalso.
      pose proof (dropLine_fresh s _ (dropLine_fresh t _
                    (dropLine_fresh e _ Hfresh))) as Hdropped.
      apply Hdropped in Hsome. rewrite !dropLine_next in Hsome. lia.
    + unfold refs.
      cbn [previewEntryLine previewTakeProfitLine previewStopLossLine].
      repeat constructor.
Qed.

Lemma preview_redraw_never_leaks_witness :
  sound {| candleSeries :=
             Some {| nextLine := 1;
                     priceLines :=
                       {[ 0%nat := mkLine 100 "#f6465d80" 1 3 true
                                     "Preview Entry: 100.00" ]} |};
           previewEntryLine := Some 0%nat;
           previewTakeProfitLine := None;
           previewStopLossLine := None |}
  /\ exists series',
       candleSeries
         (updatePreviewLines (fun _ => "0.01"%string)
            (fun _ _ => "100.00"%string) initialPreview "BTC-PERP" (Some (1 # 100))
            {| candleSeries :=
                 Some {| nextLine := 1;
                         priceLines :=
                           {[ 0%nat := mkLine 100 "#f6465d80" 1 3 true
                                         "Preview Entry: 100.00" ]} |};
               previewEntryLine := Some 0%nat;
               previewTakeProfitLine := None;
               previewStopLossLine := None |})
       = Some series'
       /\ priceLines series' !! 0%nat = None.
Proof.
  assert (Hs : sound {| candleSeries :=
             Some {| nextLine := 1;
                     priceLines :=
                       {[ 0%nat := mkLine 100 "#f6465d80" 1 3 true
                                     "Preview Entry: 100.00" ]} |};
           previewEntryLine := Some 0%nat;
           previewTakeProfitLine := None;
           previewStopLossLine := None |}).
  { unfold sound. cbn [candleSeries nextLine priceLines]. split; [| split].
    - intros k [x Hx]. destruct k as [| k]; [lia |].
      rewrite lookup_singleton_ne in Hx by lia. discriminate Hx.
    - apply NoDup_singleton.
    - intros k Hk. apply elem_of_heldLines in Hk. cbn in Hk.
      destruct Hk as [Hk | [Hk | Hk]]; try discriminate Hk.
      injection Hk as <-. rewrite lookup_singleton_eq. eauto. }
  split; [exact Hs |].
  destruct (preview_redraw_never_leaks (fun _ => "0.01"%string)
              (fun _ _ => "100.00"%string) initialPreview "BTC-PERP"
              (Some (1 # 100)) _ _ Hs eq_refl)
    as (series' & Hc & _ & Hgone & _).
  exists series'. split; [exact Hc |].
  apply Hgone. apply elem_of_heldLines. left. reflexivity.
Defined.

End PreviewInvariant.

Section PreviewActions.

Import OrderPreview PreviewLines.

Lemma updateOrderPreview_empty (prev : OrderPreviewData) :
  updateOrderPreview emptyPartial prev = prev.
Proof. destruct prev. reflexivity. Qed.

Lemma updateOrderPreview_merge (first second : PartialPreview)
    (prev : OrderPreviewData) :
  updateOrderPreview second (updateOrderPreview first prev)
  = updateOrderPreview (mergePartial first second) prev.
Proof.
  destruct first as [a1 a2 a3 a4 a5 a6 a7 a8], second as [b1 b2 b3 b4 b5 b6 b7 b8].
  unfold updateOrderPreview, mergePartial. cbn.
  destruct b1, b2, b3, b4, b5, b6, b7, b8; reflexivity.
Qed.

Lemma updates_collapse (updates : list PartialPreview) (first : PartialPreview)
    (prev : OrderPreviewData) :
  fold_left act (map Update updates) (updateOrderPreview first prev)
  = updateOrderPreview (fold_left mergePartial updates first) prev.
Proof.
  revert first. induction updates as [| data updates IH]; intros first.
  - reflexivity.
  - cbn [map fold_left act]. rewrite updateOrderPreview_merge. apply IH.
Qed.

Lemma untouched_stays_untouched (updates : list PartialPreview)
    (prev : OrderPreviewData) :
  List.Forall (fun data => p_hasInteracted data <> Some true) updates ->
  hasInteracted prev = false ->
  hasInteracted (fold_left act (map Update updates) prev) = false.
Proof.
  intros Hall. revert prev.
  induction Hall as [| data updates Hdata _ IH]; intros prev Hprev.
  - exact Hprev.
  - cbn [map fold_left]. apply IH. cbn.
    destruct (p_hasInteracted data) as [[|] |]; cbn; congruence.
Qed.

(** X16. What the order form has done to the preview since it was last
    cleared is one update: after any actions, a clear and then a run of
    updates leave the state that the single merged update leaves on the
    initial state.  Nothing from before the clear survives. *)
Theorem preview_actions_collapse (before : list Action)
    (updates : list PartialPreview) (prev : OrderPreviewData) :
  fold_left act (before ++ Clear :: map Update updates) prev
  = updateOrderPreview (fold_left mergePartial updates emptyPartial)
      initialPreview.
Proof.
  rewrite fold_left_app. cbn [fold_left act]. unfold clearOrderPreview.
  rewrite <- (updateOrderPreview_empty initialPreview) at 1.
  apply updates_collapse.
Qed.

(** X17. A form nobody has touched draws nothing.  After a clear, as long as
    no update sets [hasInteracted], the chart is asked for no preview line,
    whatever prices and flags the updates carry and whatever symbol the
    chart shows. *)
Theorem untouched_form_draws_nothing
    (numberToString : Q -> string) (toFixed : Q -> nat -> string)
    (before : list Action) (updates : list PartialPreview)
    (prev : OrderPreviewData) (sym : string) (tickSize : option Q) :
  List.Forall (fun data => p_hasInteracted data <> Some true) updates ->
  wantedLines numberToString toFixed
    (fold_left act (before ++ Clear :: map Update updates) prev) sym tickSize
  = [None; None; None].
Proof.
  intros Hall. rewrite fold_left_app. cbn [fold_left act].
  unfold wantedLines, shown.
  rewrite (untouched_stays_untouched updates (clearOrderPreview _) Hall eq_refl).
  rewrite andb_false_r. reflexivity.
Qed.

Lemma untouched_form_draws_nothing_witness :
  wantedLines (fun _ => "0.01"%string) (fun _ _ => "100.00"%string)
    (fold_left act
       ([Update (mkPartial (Some "BTC-PERP"%string) None None None None None
                   None (Some true))]
        ++ Clear
        :: map Update
             [mkPartial (Some "BTC-PERP"%string) (Some (Some Buy))
                (Some (Some 100%Q)) (Some (Some 110%Q)) None (Some true) None
                None])
       initialPreview)
    "BTC-PERP" (Some (1 # 100))
  = [None; None; None].
Proof.
  apply untouched_form_draws_nothing.
  constructor; [cbn; discriminate | constructor].
Defined.

End PreviewActions.

Section TickerFeedCoverage.

Import MarketList TickerFeed.

Lemma received_lookup (updates : list (string * TickerUpdate))
    (tickerData : TickerData) (sym : string) :
  fold_left receive updates tickerData !! sym
  = match latest sym updates with
    | Some data => Some data
    | None => tickerData !! sym
    end.
Proof.
  revert tickerData.
  induction updates as [| [s data] updates IH]; intros tickerData.
  - reflexivity.
  - cbn [fold_left latest]. rewrite IH.
    destruct (latest sym updates) as [newer |]; [reflexivity |].
    unfold receive, handleTickerUpdate. cbn [fst snd].
    destruct (String.eqb_spec s sym) as [-> | Hne].
    + apply lookup_insert_eq.
    + apply lookup_insert_ne. exact Hne.
Qed.

Lemma mergeTicker_received (updates : list (string * TickerUpdate))
    (ticker : Ticker) :
  mergeTicker (received updates) ticker
  = match latest (symbol ticker) updates with
    | Some data => spreadTicker ticker data
    | None => ticker
    end.
Proof.
  unfold mergeTicker, received. rewrite received_lookup.
  destruct (latest (symbol ticker) updates); reflexivity.
Qed.

(** X18. The market list shows each fetched row once, overlaid with the
    newest live data for it and with nothing older.  After any sequence of
    ticker updates, the merged list has the fetched list's length; the row
    at each position is the fetched row itself when no update was delivered
    under its symbol, and otherwise the fetched row with the keys of the
    newest such update laid over it.  A key that update lacks shows the
    fetched value, also when an older update had the key. *)
Theorem merged_rows_show_latest_update (tickers : list Ticker)
    (updates : list (string * TickerUpdate)) :
  length (mergedTickers tickers (received updates)) = length tickers
  /\ forall (i : nat) (ticker : Ticker),
       nth_error tickers i = Some ticker ->
       exists row,
         nth_error (mergedTickers tickers (received updates)) i = Some row
         /\ match latest (symbol ticker) updates with
            | None => row = ticker
            | Some data =>
                symbol row
                = match u_symbol data with
                  | Some s => s
                  | None => symbol ticker
                  end
                /\ quote_volume row
                   = match u_quote_volume data with
                     | Some v => v
                     | None => quote_volume ticker
                     end
            end.
Proof.
  unfold mergedTickers. split; [apply length_map |].
  intros i ticker Hi. rewrite nth_error_map, Hi. cbn [option_map].
  eexists. split; [reflexivity |].
  rewrite mergeTicker_received.
  destruct (latest (symbol ticker) updates) as [data |]; [| reflexivity].
  split; reflexivity.
Qed.

End TickerFeedCoverage.
